(** * EditorParts: the coordinator of editor parts

    A shallow embedding of [src/vs/workbench/browser/parts/editor/editorParts.ts]
    (class [EditorParts]) and the properties its specification states about
    part resolution, the most-recently-active list, window labels, state
    persistence and restoration, and cross-part group search.

    Conventions of the embedding:
    - a JavaScript object (a part, a group view, a document) is a reference;
      two objects are [===] exactly when their references are equal;
    - a JavaScript [number] used as an index or identifier is a [Z];
    - an array slot that may hold [undefined] is an [option];
    - [Set<EditorPart>] is a duplicate-free list in insertion order;
    - the storage memento (a JS object used as a dictionary) is a [gmap];
    - emitters and calls into collaborators are recorded in the state;
    - [throw] is the [Throw] constructor of [result]. *)

From stdpp Require Import gmap strings list fin_maps pretty.

Local Open Scope Z_scope.

(** ** JavaScript arrays *)

(** [array[i]] for a number [i]: [undefined] out of range. *)
Definition js_index {A} (l : list A) (i : Z) : option A :=
  if decide (0 ≤ i) then l !! Z.to_nat i else None.

(** [array.indexOf(x)]: position of the first [===] element, or [-1]. *)
Definition indexOf {A} `{EqDecision A} (l : list A) (x : A) : Z :=
  match list_find (λ y, y = x) l with
  | Some (i, _) => Z.of_nat i
  | None => -1
  end.

(** [array.splice(index, 1)] for an index that [indexOf] returned. *)
Definition splice1 {A} (l : list A) (index : Z) : list A :=
  delete (Z.to_nat index) l.

(** Truthiness of an optional boolean argument ([wrap?: boolean]). *)
Definition truthy (b : option bool) : bool := default false b.

(** Modelled from the spec: [distinct] of [vs/base/common/arrays] is not part
    of the sources; "deduplicated" keeps the first occurrence of each entry. *)
Fixpoint distinct_from {A} `{EqDecision A} (seen l : list A) : list A :=
  match l with
  | [] => []
  | x :: l' =>
      if decide (x ∈ seen) then distinct_from seen l'
      else x :: distinct_from (x :: seen) l'
  end.

Definition distinct {A} `{EqDecision A} (l : list A) : list A :=
  distinct_from [] l.

(** [Set.prototype.add] and [Set.prototype.delete] on the insertion-ordered
    representation. *)
Definition set_add {A} `{EqDecision A} (x : A) (l : list A) : list A :=
  if decide (x ∈ l) then l else l ++ [x].

Definition set_delete {A} `{EqDecision A} (x : A) (l : list A) : list A :=
  filter (λ y, y ≠ x) l.

(** ** Exceptions *)

Inductive exn :=
  | Error (message : string)
  | TypeError.

Inductive result (A : Type) :=
  | Ok (a : A)
  | Throw (e : exn).
Arguments Ok {A} a.
Arguments Throw {A} e.

#[global] Instance result_ret : MRet result := λ A a, Ok a.
#[global] Instance result_bind : MBind result := λ A B f m,
  match m with
  | Ok a => f a
  | Throw e => Throw e
  end.

(** ** Values *)

Definition GroupIdentifier := Z.

Inductive EditorPart := PartRef (ref : nat).

Record IEditorGroupView := GroupView {
  view_ref : nat;
  id : GroupIdentifier;
}.

Inductive Document := DocumentRef (ref : nat).

Record HTMLElement := { ownerDocument : Document }.

(** [IEditorGroupView | GroupIdentifier] *)
Inductive GroupOrIdentifier :=
  | OfGroup (group : IEditorGroupView)
  | OfIdentifier (identifier : GroupIdentifier).

(** [IEditorGroupView | GroupIdentifier | HTMLElement] *)
Inductive GroupOrElement :=
  | IsGroup (group : IEditorGroupView)
  | IsIdentifier (identifier : GroupIdentifier)
  | IsElement (element : HTMLElement).

Definition widen (g : GroupOrIdentifier) : GroupOrElement :=
  match g with
  | OfGroup group => IsGroup group
  | OfIdentifier n => IsIdentifier n
  end.

(** Modelled from the spec: the enumerations [GroupLocation], [GroupDirection]
    and [GroupsOrder] and the record [IFindGroupScope] are declared in
    [editorGroupsService.ts], which is not part of the sources. *)
Inductive GroupLocation := FIRST | LAST | NEXT | PREVIOUS.

Inductive GroupDirection := UP | DOWN | LEFT | RIGHT.

Inductive GroupsOrder := CREATION_TIME | MOST_RECENTLY_ACTIVE | GRID_APPEARANCE.

Record IFindGroupScope := {
  direction : option GroupDirection;
  location : option GroupLocation;
}.

#[global] Instance EditorPart_eq_dec : EqDecision EditorPart.
Proof. solve_decision. Defined.
#[global] Instance EditorPart_countable : Countable EditorPart.
Proof.
  apply (inj_countable' (λ p, match p with PartRef n => n end) PartRef).
  by intros [].
Defined.
#[global] Instance IEditorGroupView_eq_dec : EqDecision IEditorGroupView.
Proof. solve_decision. Defined.
#[global] Instance Document_eq_dec : EqDecision Document.
Proof. solve_decision. Defined.
#[global] Instance GroupLocation_eq_dec : EqDecision GroupLocation.
Proof. solve_decision. Defined.

(** ** Persisted state *)

(** The per-part layout snapshot is opaque to the coordinator. *)
Inductive IEditorPartUIState := PartUIState (token : nat).

Record IRectangle := {
  x : Z;
  y : Z;
  width : Z;
  height : Z;
}.

Record IAuxiliaryEditorPartState := {
  state : IEditorPartUIState;
  bounds : option IRectangle;
  zoomLevel : option Z;
}.

Record IEditorPartsUIState := {
  auxiliary : list IAuxiliaryEditorPartState;
  mru : list Z;
}.

(** The window that hosts a part, as far as [saveState] reads it. *)
Record Window := {
  screenX : Z;
  screenY : Z;
  outerWidth : Z;
  outerHeight : Z;
}.

Definition EDITOR_PARTS_UI_STATE_STORAGE_KEY : string := "editorparts.state".

(** ** Collaborators

    [EditorPart], the base class [MultiWindowParts] and the DOM helpers are
    not part of the sources.  What the coordinator calls on them is taken as
    an interface; every statement below holds for every implementation. *)
Class Collaborators := {
  (** [part.hasGroup(id)] *)
  part_hasGroup : EditorPart → GroupIdentifier → bool;
  (** [part.getGroup(id)] *)
  part_getGroup : EditorPart → GroupIdentifier → option IEditorGroupView;
  (** [part.getGroups(order)] *)
  part_getGroups : EditorPart → GroupsOrder → list IEditorGroupView;
  (** [part.findGroup(scope, source, wrap)] *)
  part_findGroup :
    EditorPart → IFindGroupScope → GroupOrIdentifier → option bool →
    option IEditorGroupView;
  (** [part.activeGroup] *)
  part_activeGroup : EditorPart → IEditorGroupView;
  (** [part.createState()] *)
  part_createState : EditorPart → IEditorPartUIState;
  (** [getWindow(part.getContainer())] *)
  part_window : EditorPart → option Window;
  (** [getZoomLevel(window)] *)
  getZoomLevel : Window → Z;
  (** [MultiWindowParts.getPartByDocument(document)], given the main part
      and the registered parts *)
  getPartByDocument : EditorPart → list EditorPart → Document → EditorPart;
  (** [MultiWindowParts.activePart], given the main part and the registered
      parts *)
  base_activePart : EditorPart → list EditorPart → EditorPart;
}.

(** ** Events *)

(** What the coordinator's emitters fire. *)
Inductive Event :=
  | DidCreateAuxiliaryEditorPart (part : EditorPart)
  | DidActiveGroupChange (group : IEditorGroupView)
  | DidAddGroup (group : IEditorGroupView)
  | DidRemoveGroup (group : IEditorGroupView)
  | DidMoveGroup (group : IEditorGroupView)
  | DidActivateGroup (group : IEditorGroupView)
  | DidChangeGroupIndex (group : IEditorGroupView)
  | DidChangeGroupLocked (group : IEditorGroupView)
  | DidChangeGroupMaximized (maximized : bool).

(** What a part's emitters fire for the listeners of
    [registerEditorPartListeners]. *)
Inductive PartEvent :=
  | onDidFocus
  | onDidChangeActiveGroup (group : IEditorGroupView)
  | onDidAddGroup (group : IEditorGroupView)
  | onDidRemoveGroup (group : IEditorGroupView)
  | onDidMoveGroup (group : IEditorGroupView)
  | onDidActivateGroup (group : IEditorGroupView)
  | onDidChangeGroupMaximized (maximized : bool)
  | onDidChangeGroupIndex (group : IEditorGroupView)
  | onDidChangeGroupLocked (group : IEditorGroupView).

(** ** The coordinator's state *)

Record EditorParts := {
  mainPart : EditorPart;
  (** [this._parts], a [Set] in insertion order; [this.parts] is
      [Array.from(this._parts)], the same list *)
  _parts : list EditorPart;
  mostRecentActiveParts : list (option EditorPart);
  workspaceMemento : gmap string IEditorPartsUIState;
  _isReady : bool;
  (** the label each part was created with or last notified of *)
  groupsLabel : gmap EditorPart string;
  (** events fired on the coordinator's emitters, oldest first *)
  fired : list Event;
  (** groups asked to take focus ([group.focus()]), oldest first *)
  focusRequests : list IEditorGroupView;
}.

Definition with_parts (l : list EditorPart) (s : EditorParts) : EditorParts :=
  {| mainPart := mainPart s; _parts := l;
     mostRecentActiveParts := mostRecentActiveParts s;
     workspaceMemento := workspaceMemento s; _isReady := _isReady s;
     groupsLabel := groupsLabel s; fired := fired s;
     focusRequests := focusRequests s |}.

Definition with_mostRecentActiveParts (l : list (option EditorPart))
    (s : EditorParts) : EditorParts :=
  {| mainPart := mainPart s; _parts := _parts s;
     mostRecentActiveParts := l;
     workspaceMemento := workspaceMemento s; _isReady := _isReady s;
     groupsLabel := groupsLabel s; fired := fired s;
     focusRequests := focusRequests s |}.

Definition with_workspaceMemento (m : gmap string IEditorPartsUIState)
    (s : EditorParts) : EditorParts :=
  {| mainPart := mainPart s; _parts := _parts s;
     mostRecentActiveParts := mostRecentActiveParts s;
     workspaceMemento := m; _isReady := _isReady s;
     groupsLabel := groupsLabel s; fired := fired s;
     focusRequests := focusRequests s |}.

Definition with_isReady (b : bool) (s : EditorParts) : EditorParts :=
  {| mainPart := mainPart s; _parts := _parts s;
     mostRecentActiveParts := mostRecentActiveParts s;
     workspaceMemento := workspaceMemento s; _isReady := b;
     groupsLabel := groupsLabel s; fired := fired s;
     focusRequests := focusRequests s |}.

Definition with_groupsLabel (m : gmap EditorPart string)
    (s : EditorParts) : EditorParts :=
  {| mainPart := mainPart s; _parts := _parts s;
     mostRecentActiveParts := mostRecentActiveParts s;
     workspaceMemento := workspaceMemento s; _isReady := _isReady s;
     groupsLabel := m; fired := fired s;
     focusRequests := focusRequests s |}.

(** [emitter.fire(e)] *)
Definition fire (e : Event) (s : EditorParts) : EditorParts :=
  {| mainPart := mainPart s; _parts := _parts s;
     mostRecentActiveParts := mostRecentActiveParts s;
     workspaceMemento := workspaceMemento s; _isReady := _isReady s;
     groupsLabel := groupsLabel s; fired := fired s ++ [e];
     focusRequests := focusRequests s |}.

(** [group.focus()] *)
Definition focus (g : IEditorGroupView) (s : EditorParts) : EditorParts :=
  {| mainPart := mainPart s; _parts := _parts s;
     mostRecentActiveParts := mostRecentActiveParts s;
     workspaceMemento := workspaceMemento s; _isReady := _isReady s;
     groupsLabel := groupsLabel s; fired := fired s;
     focusRequests := focusRequests s ++ [g] |}.

(** [part.notifyGroupsLabelChange(label)] *)
Definition notifyGroupsLabelChange (part : EditorPart) (label : string)
    (s : EditorParts) : EditorParts :=
  with_groupsLabel (<[part := label]> (groupsLabel s)) s.

(** ** Operations of [EditorParts] *)

Section operations.
Context `{!Collaborators}.

(** [this.parts.length] and [this._parts.size] *)
Definition size (s : EditorParts) : nat := length (_parts s).

(** Modelled from the spec: [MultiWindowParts.registerPart] and
    [MultiWindowParts.unregisterPart] are in [vs/workbench/browser/part.ts],
    which is not part of the sources; the registry "tracks the live set of
    parts", so they add to and delete from the set [_parts]. *)
Definition super_registerPart (part : EditorPart) (s : EditorParts) : EditorParts :=
  with_parts (set_add part (_parts s)) s.

Definition super_unregisterPart (part : EditorPart) (s : EditorParts) : EditorParts :=
  with_parts (set_delete part (_parts s)) s.

(** [getGroupsLabel(index)]: [localize('groupLabel', "Window {0}", index + 1)] *)
Definition getGroupsLabel (index : nat) : string :=
  "Window " +:+ pretty (index + 1)%nat.

(** [registerPart(part)]; the listeners it installs are [partListener] and
    the disposables it returns are [dispose] below. *)
Definition registerPart (part : EditorPart) (s : EditorParts) : EditorParts :=
  super_registerPart part s.

(** The [forEach] of [unregisterPart] over [this.parts], from position
    [index] on. *)
Fixpoint notifyLabels (main : EditorPart) (index : nat) (parts : list EditorPart)
    (s : EditorParts) : EditorParts :=
  match parts with
  | [] => s
  | part :: rest =>
      let s' :=
        if decide (part = main) then s
        else notifyGroupsLabelChange part (getGroupsLabel index) s in
      notifyLabels main (S index) rest s'
  end.

(** [unregisterPart(part)] *)
Definition unregisterPart (part : EditorPart) (s : EditorParts) : EditorParts :=
  let s := super_unregisterPart part s in
  notifyLabels (mainPart s) 0 (_parts s) s.

(** [doUpdateMostRecentActive(part, makeMostRecentlyActive?)] *)
Definition doUpdateMostRecentActive (part : EditorPart)
    (makeMostRecentlyActive : option bool) (s : EditorParts) : EditorParts :=
  let index := indexOf (mostRecentActiveParts s) (Some part) in
  let removed :=
    if decide (index ≠ -1) then splice1 (mostRecentActiveParts s) index
    else mostRecentActiveParts s in
  let added :=
    if truthy makeMostRecentlyActive then Some part :: removed else removed in
  with_mostRecentActiveParts added s.

(** [getPart(groupOrElement)] *)
Definition getPart (groupOrElement : GroupOrElement) (s : EditorParts) : EditorPart :=
  if decide (1 < size s)%nat then
    let by_id (n : GroupIdentifier) :=
      match list_find (λ part, part_hasGroup part n = true) (_parts s) with
      | Some (_, part) => part
      | None => mainPart s
      end in
    match groupOrElement with
    | IsElement element =>
        getPartByDocument (mainPart s) (_parts s) (ownerDocument element)
    | IsIdentifier n => by_id n
    | IsGroup group => by_id (id group)
    end
  else mainPart s.

(** [get activePart] (of the base class) and [get activeGroup] *)
Definition activePart (s : EditorParts) : EditorPart :=
  base_activePart (mainPart s) (_parts s).

Definition activeGroup (s : EditorParts) : IEditorGroupView :=
  part_activeGroup (activePart s).

(** The listeners of [registerEditorPartListeners(part, disposables)], as
    the reaction to one event of [part]. *)
Definition partListener (part : EditorPart) (e : PartEvent) (s : EditorParts) : EditorParts :=
  match e with
  | onDidFocus =>
      let s := doUpdateMostRecentActive part (Some true) s in
      if decide (1 < size s)%nat then fire (DidActiveGroupChange (activeGroup s)) s
      else s
  | onDidChangeActiveGroup group => fire (DidActiveGroupChange group) s
  | onDidAddGroup group => fire (DidAddGroup group) s
  | onDidRemoveGroup group => fire (DidRemoveGroup group) s
  | onDidMoveGroup group => fire (DidMoveGroup group) s
  | onDidActivateGroup group => fire (DidActivateGroup group) s
  | onDidChangeGroupMaximized maximized => fire (DidChangeGroupMaximized maximized) s
  | onDidChangeGroupIndex group => fire (DidChangeGroupIndex group) s
  | onDidChangeGroupLocked group => fire (DidChangeGroupLocked group) s
  end.

(** Modelled from the spec: the disposable that the base class's
    [registerPart] returns is in [vs/workbench/browser/part.ts], which is not
    part of the sources; a part is "destroyed by explicit unregistration, at
    which point all bookkeeping for that Part is removed exactly once", so
    disposing it calls [unregisterPart(part)].  [registerPart] adds it first
    to the store it returns, and [registerEditorPartListeners] adds (the
    listeners apart) [toDisposable(() => this.doUpdateMostRecentActive(part))]
    after it; a store disposes its entries in the order they were added. *)
Definition dispose (part : EditorPart) (s : EditorParts) : EditorParts :=
  doUpdateMostRecentActive part None (unregisterPart part s).

(** [createAuxiliaryEditorPart(options)] is asynchronous.  The label is
    computed when the request is made. *)
Definition createAuxiliaryEditorPart_request (s : EditorParts) : string :=
  getGroupsLabel (size s).

(** Modelled from the spec: [AuxiliaryEditorPart.create] is in
    [auxiliaryEditorPart.ts], which is not part of the sources; the part
    factory "constructs auxiliary Parts given creation options (label, ...)"
    and the new part is "registered (entering Registry/Aggregator/MRU
    bookkeeping)".  Once it has resolved with [part], the two events are
    fired. *)
Definition createAuxiliaryEditorPart_resolve (label : string) (part : EditorPart)
    (s : EditorParts) : EditorParts :=
  let s := with_groupsLabel (<[part := label]> (groupsLabel s)) s in
  let s := registerPart part s in
  let s := fire (DidAddGroup (part_activeGroup part)) s in
  fire (DidCreateAuxiliaryEditorPart part) s.

(** One request that resolves before anything else happens. *)
Definition createAuxiliaryEditorPart (part : EditorPart) (s : EditorParts) : EditorParts :=
  createAuxiliaryEditorPart_resolve (createAuxiliaryEditorPart_request s) part s.

(** The constructor, up to the call of [restoreParts()]. *)
Definition construct (main : EditorPart) (memento : gmap string IEditorPartsUIState)
    : EditorParts :=
  registerPart main
    {| mainPart := main; _parts := [];
       mostRecentActiveParts := [Some main];
       workspaceMemento := memento; _isReady := false;
       groupsLabel := ∅; fired := []; focusRequests := [] |}.

(** The "Update MRU list" step of [restoreParts], run once all creation
    requests have settled. *)
Definition restoreMostRecentActiveParts (uiState : IEditorPartsUIState)
    (s : EditorParts) : EditorParts :=
  if decide (length (mru uiState) = length (_parts s)) then
    with_mostRecentActiveParts ((λ index, js_index (_parts s) index) <$> mru uiState) s
  else
    with_mostRecentActiveParts (Some <$> _parts s) s.

(** [firstOrDefault(array)] without a default: [array[0]]. *)
Definition firstOrDefault {A} (l : list (option A)) : option A :=
  mjoin (head l).

(** [restoreParts()].  [willRestoreState] is [this.mainPart.willRestoreState];
    [settled] lists the parts that the creation requests registered, in the
    order of their registration (a request that failed registers none).
    All requests are made before any of them resolves, so they all carry the
    label computed from the registry as it is when they are made.

    First the part up to "Await ready". *)
Definition restoreAuxiliaryParts (willRestoreState : bool)
    (settled : list EditorPart) (s : EditorParts) : EditorParts :=
  if willRestoreState then
    match workspaceMemento s !! EDITOR_PARTS_UI_STATE_STORAGE_KEY with
    | Some uiState =>
        if decide (length (auxiliary uiState) ≠ 0%nat) then
          let label := createAuxiliaryEditorPart_request s in
          let s := foldl (λ s part, createAuxiliaryEditorPart_resolve label part s)
                     s settled in
          restoreMostRecentActiveParts uiState s
        else s
    | None => s
    end
  else s.

Definition restoreParts (willRestoreState : bool) (settled : list EditorPart)
    (s : EditorParts) : EditorParts :=
  let s := restoreAuxiliaryParts willRestoreState settled s in
  let s :=
    match firstOrDefault (mostRecentActiveParts s) with
    | Some mostRecentActivePart => focus (part_activeGroup mostRecentActivePart) s
    | None => s
    end in
  with_isReady true s.

(** [saveState()] *)
Definition auxiliaryState (part : EditorPart) : IAuxiliaryEditorPartState :=
  {| state := part_createState part;
     bounds :=
       match part_window part with
       | Some auxiliaryWindow =>
           Some {| x := screenX auxiliaryWindow; y := screenY auxiliaryWindow;
                   width := outerWidth auxiliaryWindow;
                   height := outerHeight auxiliaryWindow |}
       | None => None
       end;
     zoomLevel :=
       match part_window part with
       | Some auxiliaryWindow => Some (getZoomLevel auxiliaryWindow)
       | None => None
       end |}.

(** [this.parts.indexOf(part)] for a slot of the MRU list. *)
Definition indexOfSlot (parts : list EditorPart) (slot : option EditorPart) : Z :=
  match slot with
  | Some part => indexOf parts part
  | None => -1
  end.

Definition saveState (s : EditorParts) : EditorParts :=
  let uiState :=
    {| auxiliary := auxiliaryState <$> filter (λ part, part ≠ mainPart s) (_parts s);
       mru := indexOfSlot (_parts s) <$> mostRecentActiveParts s |} in
  if decide (length (auxiliary uiState) = 0%nat) then
    with_workspaceMemento
      (delete EDITOR_PARTS_UI_STATE_STORAGE_KEY (workspaceMemento s)) s
  else
    with_workspaceMemento
      (<[EDITOR_PARTS_UI_STATE_STORAGE_KEY := uiState]> (workspaceMemento s)) s.

(** [getGroups(order = GroupsOrder.CREATION_TIME)]; in the order
    [MOST_RECENTLY_ACTIVE] an [undefined] slot of the MRU list is
    dereferenced. *)
Fixpoint defined {A} (l : list (option A)) : result (list A) :=
  match l with
  | [] => Ok []
  | Some a :: l' => l'' ← defined l'; Ok (a :: l'')
  | None :: _ => Throw TypeError
  end.

Definition getGroups (order : option GroupsOrder) (s : EditorParts)
    : result (list IEditorGroupView) :=
  let order := default CREATION_TIME order in
  if decide (1 < size s)%nat then
    parts ←
      match order with
      | GRID_APPEARANCE | CREATION_TIME => Ok (_parts s)
      | MOST_RECENTLY_ACTIVE =>
          defined (distinct (mostRecentActiveParts s ++ (Some <$> _parts s)))
      end;
    Ok (concat ((λ part, part_getGroups part order) <$> parts))
  else Ok (part_getGroups (mainPart s) order).

(** [getGroup(identifier)] *)
Fixpoint firstGroup (parts : list EditorPart) (identifier : GroupIdentifier)
    : option IEditorGroupView :=
  match parts with
  | [] => None
  | part :: rest =>
      match part_getGroup part identifier with
      | Some group => Some group
      | None => firstGroup rest identifier
      end
  end.

Definition getGroup (identifier : GroupIdentifier) (s : EditorParts)
    : option IEditorGroupView :=
  let found :=
    if decide (1 < size s)%nat then firstGroup (_parts s) identifier else None in
  match found with
  | Some group => Some group
  | None => part_getGroup (mainPart s) identifier
  end.

(** [assertGroupView(group)] *)
Definition assertGroupView (group : GroupOrIdentifier) (s : EditorParts)
    : result IEditorGroupView :=
  let groupView :=
    match group with
    | OfIdentifier n => getGroup n s
    | OfGroup g => Some g
    end in
  match groupView with
  | None => Throw (Error "Invalid editor group provided!")
  | Some groupView => Ok groupView
  end.

(** [findGroup(scope, source = this.activeGroup, wrap?)] *)
Definition findGroup (scope : IFindGroupScope) (source : option GroupOrIdentifier)
    (wrap : option bool) (s : EditorParts) : result (option IEditorGroupView) :=
  let source := default (OfGroup (activeGroup s)) source in
  let sourcePart := getPart (widen source) s in
  if decide (1 < size s)%nat then
    groups ← getGroups (Some GRID_APPEARANCE) s;
    if decide (location scope = Some FIRST ∨ location scope = Some LAST) then
      Ok (if decide (location scope = Some FIRST) then js_index groups 0
          else js_index groups (Z.of_nat (length groups) - 1))
    else
      match part_findGroup sourcePart scope source (Some false) with
      | Some group => Ok (Some group)
      | None =>
          if decide (location scope = Some NEXT ∨ location scope = Some PREVIOUS) then
            sourceGroup ← assertGroupView source s;
            let index := indexOf groups sourceGroup in
            if decide (location scope = Some NEXT) then
              match js_index groups (index + 1) with
              | Some nextGroup => Ok (Some nextGroup)
              | None => Ok (if truthy wrap then js_index groups 0 else None)
              end
            else
              match js_index groups (index - 1) with
              | Some previousGroup => Ok (Some previousGroup)
              | None =>
                  Ok (if truthy wrap
                      then js_index groups (Z.of_nat (length groups) - 1)
                      else None)
              end
          else Ok (part_findGroup sourcePart scope source wrap)
      end
  else Ok (part_findGroup sourcePart scope source wrap).

(** ** Runs of the coordinator

    What can happen to a constructed coordinator, one step at a time: a
    creation request that resolves with a new part, an event of a registered
    part (its listeners are installed by [registerPart] and removed when the
    part is disposed), and the disposal of an auxiliary part (the main part
    is "never unregistered"). *)
Inductive Action :=
  | Create (part : EditorPart)
  | Emit (part : EditorPart) (e : PartEvent)
  | Dispose (part : EditorPart).

Definition perform (s : EditorParts) (a : Action) : EditorParts :=
  match a with
  | Create part =>
      if decide (part ∈ _parts s) then s else createAuxiliaryEditorPart part s
  | Emit part e =>
      if decide (part ∈ _parts s) then partListener part e s else s
  | Dispose part =>
      if decide (part ∈ _parts s ∧ part ≠ mainPart s) then dispose part s else s
  end.

Definition run (s : EditorParts) (actions : list Action) : EditorParts :=
  foldl perform s actions.

End operations.

(** ** Specification-side definitions *)

(** Removal of the first occurrence of [x]: what "remove that Part from the
    list if present" means on a list. *)
Fixpoint remove_first {A} `{EqDecision A} (x : A) (l : list A) : list A :=
  match l with
  | [] => []
  | y :: l' => if decide (y = x) then l' else y :: remove_first x l'
  end.

(** The auxiliary parts, in the order of the registry. *)
Definition auxiliaryParts (s : EditorParts) : list EditorPart :=
  filter (λ part, part ≠ mainPart s) (_parts s).

(** The registry as a [Set] keeps it: duplicate-free, the main part first. *)
Definition registry_wf (s : EditorParts) : Prop :=
  NoDup (_parts s) ∧ head (_parts s) = Some (mainPart s).

(** The MRU list as the two rules keep it: duplicate-free, holding only
    registered parts, the main part among them. *)
Definition mru_wf (s : EditorParts) : Prop :=
  NoDup (mostRecentActiveParts s) ∧
  Some (mainPart s) ∈ mostRecentActiveParts s ∧
  ∀ slot, slot ∈ mostRecentActiveParts s →
    ∃ part, slot = Some part ∧ part ∈ _parts s.




(** Persisted positions that are valid indices into an array of [n] parts. *)
Definition valid_positions (n : nat) (positions : list Z) : Prop :=
  ∀ i, i ∈ positions → 0 ≤ i < Z.of_nat n.

(** ** A sample configuration

    Two windows: the main part with groups 1 and 2, an auxiliary part with
    groups 3, 4 and 5; further parts have no groups. *)
Module Sample.

Definition main : EditorPart := PartRef 0.
Definition aux1 : EditorPart := PartRef 1.
Definition aux2 : EditorPart := PartRef 2.

Definition g (n : nat) : IEditorGroupView :=
  {| view_ref := n; id := Z.of_nat n |}.

Definition groupsOf (part : EditorPart) : list IEditorGroupView :=
  match part with
  | PartRef 0 => [g 1; g 2]
  | PartRef 1 => [g 3; g 4; g 5]
  | _ => []
  end.

Definition sourceId (source : GroupOrIdentifier) : GroupIdentifier :=
  match source with
  | OfGroup group => id group
  | OfIdentifier n => n
  end.

(** A part's own search: the neighbour in its own list of groups. *)
Definition localFind (part : EditorPart) (scope : IFindGroupScope)
    (source : GroupOrIdentifier) (wrap : option bool) : option IEditorGroupView :=
  let groups := groupsOf part in
  let index :=
    match list_find (λ v, id v = sourceId source) groups with
    | Some (i, _) => Z.of_nat i
    | None => -1
    end in
  match location scope with
  | Some FIRST => js_index groups 0
  | Some LAST => js_index groups (Z.of_nat (length groups) - 1)
  | Some NEXT =>
      match js_index groups (index + 1) with
      | Some v => Some v
      | None => if truthy wrap then js_index groups 0 else None
      end
  | Some PREVIOUS =>
      match js_index groups (index - 1) with
      | Some v => Some v
      | None =>
          if truthy wrap then js_index groups (Z.of_nat (length groups) - 1)
          else None
      end
  | None => None
  end.

#[global] Instance collaborators : Collaborators := {|
  part_hasGroup part n := bool_decide (n ∈ id <$> groupsOf part);
  part_getGroup part n := snd <$> list_find (λ v, id v = n) (groupsOf part);
  part_getGroups part _ := groupsOf part;
  part_findGroup := localFind;
  part_activeGroup part := default (g 0) (head (groupsOf part));
  part_createState part := match part with PartRef n => PartUIState n end;
  part_window part :=
    match part with
    | PartRef n =>
        Some {| screenX := Z.of_nat n * 100; screenY := 50;
                outerWidth := 800; outerHeight := 600 |}
    end;
  getZoomLevel _ := 0;
  getPartByDocument main parts document :=
    match document with
    | DocumentRef n => if decide (PartRef n ∈ parts) then PartRef n else main
    end;
  base_activePart main _ := main;
|}.

(** The constructed coordinator, and the coordinator after one, two and
    three auxiliary windows were opened. *)
Definition one : EditorParts := construct main ∅.
Definition two : EditorParts := run one [Create aux1].
Definition three : EditorParts := run one [Create aux1; Create aux2].

(** A snapshot saved with two auxiliary windows, the second one most
    recently active, and the coordinator constructed over it. *)
Definition saved : IEditorPartsUIState :=
  {| auxiliary := [auxiliaryState aux1; auxiliaryState aux2];
     mru := [2; 0; 1] |}.

Definition stored : EditorParts :=
  construct main {[ EDITOR_PARTS_UI_STATE_STORAGE_KEY := saved ]}.



End Sample.

(** ** Further operations of [EditorParts] *)

(** Arguments that the coordinator passes on to a part without looking into
    them; their types are declared in files that are not part of the
    sources. *)
Inductive GroupsArrangement := Arrangement (token : nat).

Inductive EditorGroupLayout := Layout (token : nat).

Inductive GroupOrientation := Orientation (token : nat).

Inductive IMergeGroupOptions := MergeGroupOptions (token : nat).

Inductive IEditorDropTargetDelegate := DropTargetDelegate (token : nat).

(** The operations of the editor groups service that the coordinator hands
    to one of its parts, with their arguments. *)
Inductive Operation :=
  | activateGroup (group : GroupOrIdentifier)
  | getSize (group : GroupOrIdentifier)
  | setSize (group : GroupOrIdentifier) (dimensions : Z * Z)
  | arrangeGroups (arrangement : GroupsArrangement) (group : option GroupOrIdentifier)
  | toggleMaximizeGroup (group : option GroupOrIdentifier)
  | toggleExpandGroup (group : option GroupOrIdentifier)
  | restoreGroup (group : GroupOrIdentifier)
  | applyLayout (layout : EditorGroupLayout)
  | getLayout
  | orientation
  | setGroupOrientation (value : GroupOrientation)
  | addGroup (place : GroupOrIdentifier) (towards : GroupDirection)
  | removeGroup (group : GroupOrIdentifier)
  | moveGroup (group place : GroupOrIdentifier) (towards : GroupDirection)
  | mergeGroup (group target : GroupOrIdentifier) (options : option IMergeGroupOptions)
  | mergeAllGroups (target : GroupOrIdentifier)
  | copyGroup (group place : GroupOrIdentifier) (towards : GroupDirection)
  | createEditorDropTarget (container : HTMLElement) (delegate : IEditorDropTargetDelegate)
  | partOptions
  | onDidChangeEditorPartOptions.

Section more_operations.
Context `{!Collaborators}.

(** [get groups] and [get count] *)
Definition groups (s : EditorParts) : result (list IEditorGroupView) :=
  getGroups None s.

Definition count (s : EditorParts) : result nat :=
  all ← groups s; Ok (length all).

(** The part on which each operation is called: [this.getPart(...)],
    [this.activePart] or [this.mainPart]. *)
Definition receiver (op : Operation) (s : EditorParts) : EditorPart :=
  match op with
  | activateGroup group
  | getSize group
  | setSize group _
  | restoreGroup group
  | removeGroup group
  | moveGroup group _ _
  | mergeGroup group _ _
  | copyGroup group _ _ => getPart (widen group) s
  | addGroup place _ => getPart (widen place) s
  | arrangeGroups _ group
  | toggleMaximizeGroup group
  | toggleExpandGroup group =>
      match group with
      | Some group => getPart (widen group) s
      | None => activePart s
      end
  | applyLayout _
  | getLayout
  | orientation
  | setGroupOrientation _
  | mergeAllGroups _ => activePart s
  | createEditorDropTarget container _ => getPart (IsElement container) s
  | partOptions
  | onDidChangeEditorPartOptions => mainPart s
  end.

(** The end of [restoreParts], from after "Await ready" to the ready flag:
    the head of the MRU list as it is then is asked to take focus.  Parts'
    events handled while [restoreParts] awaits the parts' readiness come
    between the rebuild of the MRU list and this step. *)
Definition restoreParts_afterReady (s : EditorParts) : EditorParts :=
  let s :=
    match firstOrDefault (mostRecentActiveParts s) with
    | Some mostRecentActivePart => focus (part_activeGroup mostRecentActivePart) s
    | None => s
    end in
  with_isReady true s.

(** [findGroup] for parts whose own [findGroup] may throw: [search] is
    [part.findGroup], and what it throws passes through the two calls of
    [findGroup] uncaught. *)
Definition findGroup_throwing
    (search : EditorPart → IFindGroupScope → GroupOrIdentifier → option bool →
              result (option IEditorGroupView))
    (scope : IFindGroupScope) (source : option GroupOrIdentifier)
    (wrap : option bool) (s : EditorParts) : result (option IEditorGroupView) :=
  let source := default (OfGroup (activeGroup s)) source in
  let sourcePart := getPart (widen source) s in
  if decide (1 < size s)%nat then
    groups ← getGroups (Some GRID_APPEARANCE) s;
    if decide (location scope = Some FIRST ∨ location scope = Some LAST) then
      Ok (if decide (location scope = Some FIRST) then js_index groups 0
          else js_index groups (Z.of_nat (length groups) - 1))
    else
      group ← search sourcePart scope source (Some false);
      match group with
      | Some group => Ok (Some group)
      | None =>
          if decide (location scope = Some NEXT ∨ location scope = Some PREVIOUS) then
            sourceGroup ← assertGroupView source s;
            let index := indexOf groups sourceGroup in
            if decide (location scope = Some NEXT) then
              match js_index groups (index + 1) with
              | Some nextGroup => Ok (Some nextGroup)
              | None => Ok (if truthy wrap then js_index groups 0 else None)
              end
            else
              match js_index groups (index - 1) with
              | Some previousGroup => Ok (Some previousGroup)
              | None =>
                  Ok (if truthy wrap
                      then js_index groups (Z.of_nat (length groups) - 1)
                      else None)
              end
          else search sourcePart scope source wrap
      end
  else search sourcePart scope source wrap.

End more_operations.

(** The operations that go to the active part, whatever their arguments. *)
Definition usesActivePart (op : Operation) : bool :=
  match op with
  | arrangeGroups _ None
  | toggleMaximizeGroup None
  | toggleExpandGroup None
  | applyLayout _
  | getLayout
  | orientation
  | setGroupOrientation _
  | mergeAllGroups _ => true
  | _ => false
  end.

(** The identifier that [getPart] looks for, for a group or an identifier. *)
Definition identifierOf (group : GroupOrIdentifier) : GroupIdentifier :=
  match group with
  | OfGroup view => id view
  | OfIdentifier n => n
  end.

(** A snapshot saved with three windows of which only the last and the main
    one had been focused, restored when one window could not be created. *)
Definition staleSnapshot : IEditorPartsUIState :=
  {| auxiliary := auxiliary Sample.saved; mru := [2; 0] |}.

Definition storedStale : EditorParts :=
  construct Sample.main {[ EDITOR_PARTS_UI_STATE_STORAGE_KEY := staleSnapshot ]}.

(** The sample parts with a search that finds nothing from a source that is
    not one of the part's own groups. *)
Definition strictCollaborators : Collaborators := {|
  part_hasGroup := @part_hasGroup Sample.collaborators;
  part_getGroup := @part_getGroup Sample.collaborators;
  part_getGroups := @part_getGroups Sample.collaborators;
  part_findGroup part scope source wrap :=
    if decide (Sample.sourceId source ∈ id <$> Sample.groupsOf part)
    then Sample.localFind part scope source wrap
    else None;
  part_activeGroup := @part_activeGroup Sample.collaborators;
  part_createState := @part_createState Sample.collaborators;
  part_window := @part_window Sample.collaborators;
  getZoomLevel := @getZoomLevel Sample.collaborators;
  getPartByDocument := @getPartByDocument Sample.collaborators;
  base_activePart := @base_activePart Sample.collaborators;
|}.

(** * Properties *)

(** ** JavaScript arrays *)

Section arrays.
Context {A : Type} `{EqDecision A}.
Implicit Types (l : list A) (x y : A).

Lemma indexOf_cons l x y :
  indexOf (y :: l) x = if decide (y = x) then 0 else
    if decide (indexOf l x = -1) then -1 else indexOf l x + 1.
Proof.
  unfold indexOf. cbn [list_find]. destruct (decide (y = x)) as [|Hne]; [done|].
  destruct (list_find _ l) as [[i ?]|]; cbn; [|done].
  destruct (decide _); lia.
Qed.

Lemma indexOf_range l x : -1 ≤ indexOf l x < Z.of_nat (length l).
Proof.
  induction l as [|y l IH]; [unfold indexOf; cbn; lia|].
  rewrite indexOf_cons. cbn [length]. repeat destruct (decide _); lia.
Qed.

Lemma indexOf_absent l x : x ∉ l ↔ indexOf l x = -1.
Proof.
  induction l as [|y l IH]; [by split; [|intros _; apply not_elem_of_nil]|].
  rewrite indexOf_cons, not_elem_of_cons.
  pose proof (indexOf_range l x).
  repeat destruct (decide _); subst; split; intros; try tauto; try lia.
  - destruct IH as [_ IH]. split; [done|by apply IH].
Qed.

Lemma indexOf_lookup l x :
  x ∈ l → js_index l (indexOf l x) = Some x.
Proof.
  induction l as [|y l IH]; [by intros ?%elem_of_nil|].
  intros Hin. rewrite indexOf_cons.
  destruct (decide (y = x)) as [->|Hne]; [done|].
  apply elem_of_cons in Hin as [?|Hin]; [congruence|].
  pose proof (indexOf_range l x). pose proof Hin as Hin'.
  apply IH in Hin. destruct (decide _) as [Habs|_].
  { apply indexOf_absent in Habs. contradiction. }
  unfold js_index in *. destruct (decide (0 ≤ indexOf l x)); [|done].
  rewrite decide_True by lia.
  replace (Z.to_nat (indexOf l x + 1)) with (S (Z.to_nat (indexOf l x))) by lia.
  done.
Qed.


(** [indexOf] followed by the guarded [splice] removes the first occurrence. *)
Lemma splice_indexOf l x :
  (if decide (indexOf l x ≠ -1) then splice1 l (indexOf l x) else l)
  = remove_first x l.
Proof.
  induction l as [|y l IH]; [by unfold indexOf; cbn|].
  rewrite indexOf_cons. cbn [remove_first].
  pose proof (indexOf_range l x).
  destruct (decide (y = x)) as [|Hne]; [done|].
  rewrite <- IH. unfold splice1.
  destruct (decide (indexOf l x = -1)) as [Heq|Hneq].
  - rewrite Heq. done.
  - rewrite !decide_True by lia.
    replace (Z.to_nat (indexOf l x + 1)) with (S (Z.to_nat (indexOf l x))) by lia.
    done.
Qed.

Lemma remove_first_absent l x : x ∉ l → remove_first x l = l.
Proof.
  induction l as [|y l IH]; [done|]. intros [? ?]%not_elem_of_cons. cbn.
  rewrite decide_False by done. by rewrite IH.
Qed.

Lemma elem_of_remove_first l x y : y ∈ remove_first x l → y ∈ l.
Proof.
  induction l as [|z l IH]; [done|]. cbn. destruct (decide (z = x)).
  - by right.
  - intros [->|?]%elem_of_cons; [by left|right; auto].
Qed.

Lemma elem_of_remove_first_ne l x y : y ≠ x → y ∈ l → y ∈ remove_first x l.
Proof.
  intros Hne. induction l as [|z l IH]; [done|]. cbn.
  intros [->|?]%elem_of_cons.
  - rewrite decide_False by done. by left.
  - destruct (decide (z = x)); [done|]. right; auto.
Qed.

Lemma NoDup_remove_first l x :
  NoDup l → NoDup (remove_first x l) ∧ x ∉ remove_first x l.
Proof.
  induction 1 as [|z l Hz Hnd IH]; [split; [constructor|apply not_elem_of_nil]|].
  cbn. destruct (decide (z = x)) as [->|Hne]; [done|].
  destruct IH as [IH1 IH2]. split.
  - constructor; [|done]. intros ?%elem_of_remove_first. done.
  - apply not_elem_of_cons. split; [congruence|done].
Qed.

Lemma filter_ne_absent l x : x ∉ l → filter (λ y, y ≠ x) l = l.
Proof.
  induction l as [|z l IH]; [done|]. intros [? ?]%not_elem_of_cons.
  rewrite filter_cons_True by done. by rewrite IH.
Qed.

Lemma remove_first_filter l x :
  NoDup l → remove_first x l = filter (λ y, y ≠ x) l.
Proof.
  induction 1 as [|z l Hz Hnd IH]; [done|]. cbn [remove_first].
  destruct (decide (z = x)) as [->|Hne].
  - rewrite filter_cons_False by (intros ?; done).
    by rewrite filter_ne_absent.
  - rewrite filter_cons_True by done. by rewrite IH.
Qed.

Lemma js_index_lookup l (i : nat) : js_index l (Z.of_nat i) = l !! i.
Proof. unfold js_index. rewrite decide_True by lia. by rewrite Nat2Z.id. Qed.

Lemma js_index_Some l (i : Z) x :
  js_index l i = Some x ↔ 0 ≤ i ∧ l !! Z.to_nat i = Some x.
Proof.
  unfold js_index. destruct (decide _) as [Hle|Hlt]; [tauto|].
  split; [done|intros [? _]; lia].
Qed.


End arrays.

(** ** How each operation changes the registry and the MRU list *)

Section coordinator.
Context `{!Collaborators}.
Implicit Types (s : EditorParts) (part : EditorPart).

Lemma notifyLabels_frame main index parts s :
  mainPart (notifyLabels main index parts s) = mainPart s ∧
  _parts (notifyLabels main index parts s) = _parts s ∧
  mostRecentActiveParts (notifyLabels main index parts s) = mostRecentActiveParts s ∧
  workspaceMemento (notifyLabels main index parts s) = workspaceMemento s ∧
  fired (notifyLabels main index parts s) = fired s.
Proof.
  revert index s. induction parts as [|part rest IH]; intros index s; [done|].
  cbn [notifyLabels]. destruct (IH (S index)
    (if decide (part = main) then s
     else notifyGroupsLabelChange part (getGroupsLabel index) s))
    as (-> & -> & -> & -> & ->).
  by destruct (decide _).
Qed.

Lemma unregisterPart_frame part s :
  mainPart (unregisterPart part s) = mainPart s ∧
  _parts (unregisterPart part s) = set_delete part (_parts s) ∧
  mostRecentActiveParts (unregisterPart part s) = mostRecentActiveParts s ∧
  workspaceMemento (unregisterPart part s) = workspaceMemento s ∧
  fired (unregisterPart part s) = fired s.
Proof.
  unfold unregisterPart.
  destruct (notifyLabels_frame (mainPart (super_unregisterPart part s)) 0
    (_parts (super_unregisterPart part s)) (super_unregisterPart part s))
    as (-> & -> & -> & -> & ->).
  done.
Qed.

Lemma doUpdateMostRecentActive_mru part flag s :
  mostRecentActiveParts (doUpdateMostRecentActive part flag s) =
    if truthy flag
    then Some part :: remove_first (Some part) (mostRecentActiveParts s)
    else remove_first (Some part) (mostRecentActiveParts s).
Proof.
  unfold doUpdateMostRecentActive. cbn [with_mostRecentActiveParts mostRecentActiveParts].
  by rewrite splice_indexOf.
Qed.

Lemma partListener_mru part e s :
  mostRecentActiveParts (partListener part e s) =
    match e with
    | onDidFocus => Some part :: remove_first (Some part) (mostRecentActiveParts s)
    | _ => mostRecentActiveParts s
    end.
Proof.
  destruct e; try done. cbn [partListener].
  destruct (decide _); cbn [fire mostRecentActiveParts];
    by rewrite doUpdateMostRecentActive_mru.
Qed.

Lemma partListener_frame part e s :
  mainPart (partListener part e s) = mainPart s ∧
  _parts (partListener part e s) = _parts s ∧
  groupsLabel (partListener part e s) = groupsLabel s.
Proof. destruct e; try done. cbn [partListener]. by destruct (decide _). Qed.

Lemma dispose_mru part s :
  mostRecentActiveParts (dispose part s) =
    remove_first (Some part) (mostRecentActiveParts s).
Proof.
  unfold dispose. rewrite doUpdateMostRecentActive_mru. cbn [truthy default].
  by destruct (unregisterPart_frame part s) as (_ & _ & -> & _).
Qed.

Lemma dispose_frame part s :
  mainPart (dispose part s) = mainPart s ∧
  _parts (dispose part s) = set_delete part (_parts s).
Proof.
  unfold dispose, doUpdateMostRecentActive.
  cbn [with_mostRecentActiveParts mainPart _parts].
  by destruct (unregisterPart_frame part s) as (-> & -> & _).
Qed.


(** ** The registry stays a set with the main part first *)

Lemma NoDup_set_add {A} `{EqDecision A} (a : A) (l : list A) :
  NoDup l → NoDup (set_add a l).
Proof.
  intros Hnd. unfold set_add. destruct (decide _) as [|Hnotin]; [done|].
  apply NoDup_app. split_and!; [done| |apply NoDup_singleton].
  intros b Hb ->%list_elem_of_singleton. done.
Qed.

Lemma elem_of_set_add {A} `{EqDecision A} (a b : A) (l : list A) :
  b ∈ set_add a l ↔ b = a ∨ b ∈ l.
Proof.
  unfold set_add. destruct (decide _) as [Hin|Hnotin].
  - split; [by right|]. intros [->|?]; done.
  - rewrite elem_of_app, list_elem_of_singleton. tauto.
Qed.

Lemma head_set_add {A} `{EqDecision A} (a b : A) (l : list A) :
  head l = Some b → head (set_add a l) = Some b.
Proof. unfold set_add. destruct (decide _); [done|]. by destruct l. Qed.

Lemma construct_registry_wf main memento : registry_wf (construct main memento).
Proof. split; [apply NoDup_singleton|done]. Qed.

Lemma perform_mainPart s a : mainPart (perform s a) = mainPart s.
Proof.
  destruct a as [part|part e|part]; cbn [perform]; destruct (decide _); try done.
  - by destruct (partListener_frame part e s) as (-> & _).
  - by destruct (dispose_frame part s) as (-> & _).
Qed.

Lemma perform_registry_wf s a : registry_wf s → registry_wf (perform s a).
Proof.
  intros [Hnd Hhead]. unfold registry_wf. rewrite perform_mainPart.
  destruct a as [part|part e|part]; cbn [perform];
    destruct (decide _) as [Hyes|Hno]; try done.
  - split; [by apply NoDup_set_add|by apply head_set_add].
  - by destruct (partListener_frame part e s) as (_ & -> & _).
  - destruct (dispose_frame part s) as (_ & ->). destruct Hyes as [_ Hne].
    split; [by apply NoDup_filter|]. unfold set_delete.
    destruct (_parts s) as [|first rest]; [done|]. injection Hhead as ->.
    by rewrite filter_cons_True by done.
Qed.

Lemma run_app s actions actions' :
  run s (actions ++ actions') = run (run s actions) actions'.
Proof. apply foldl_app. Qed.

Lemma run_mainPart s actions : mainPart (run s actions) = mainPart s.
Proof.
  revert s. induction actions as [|a actions IH]; intros s; [done|].
  cbn. unfold run in IH. by rewrite IH, perform_mainPart.
Qed.

Lemma run_registry_wf s actions : registry_wf s → registry_wf (run s actions).
Proof.
  revert s. induction actions as [|a actions IH]; intros s Hwf; [done|].
  apply IH. by apply perform_registry_wf.
Qed.

Lemma registry_wf_main s : registry_wf s → mainPart s ∈ _parts s.
Proof. intros [_ Hhead]. destruct (_parts s); [done|]. injection Hhead as ->. by left. Qed.

(** ** The MRU list stays duplicate-free and holds the main part *)

Lemma construct_mru_wf main memento : mru_wf (construct main memento).
Proof.
  split_and!; [apply NoDup_singleton|by left|].
  intros slot ->%list_elem_of_singleton. exists main. split; [done|by left].
Qed.

Lemma perform_mru_wf s a : mru_wf s → mru_wf (perform s a).
Proof.
  intros (Hnd & Hmain & Hreg). unfold mru_wf. rewrite perform_mainPart.
  destruct a as [part|part e|part]; cbn [perform];
    destruct (decide _) as [Hyes|Hno]; try done.
  - split_and!; try done. intros slot [q [-> Hq]]%Hreg. exists q.
    split; [done|]. apply elem_of_set_add. by right.
  - destruct (partListener_frame part e s) as (_ & -> & _).
    rewrite partListener_mru. destruct e; try done.
    destruct (NoDup_remove_first (mostRecentActiveParts s) (Some part) Hnd)
      as [Hnd' Hout].
    split_and!.
    + by constructor.
    + destruct (decide (Some (mainPart s) = Some part)) as [->|Hne]; [by left|].
      right. by apply elem_of_remove_first_ne.
    + intros slot [->|Hin%elem_of_remove_first]%elem_of_cons; [by exists part|auto].
  - destruct (dispose_frame part s) as (_ & ->). rewrite dispose_mru.
    destruct Hyes as [Hin Hne].
    destruct (NoDup_remove_first (mostRecentActiveParts s) (Some part) Hnd)
      as [Hnd' Hout].
    split_and!; [done| |].
    + apply elem_of_remove_first_ne; [congruence|done].
    + intros slot Hslot. pose proof Hslot as [q [-> Hq]]%elem_of_remove_first%Hreg.
      exists q. split; [done|]. apply list_elem_of_filter. split; [|done].
      intros ->. done.
Qed.

Lemma run_mru_wf s actions : mru_wf s → mru_wf (run s actions).
Proof.
  revert s. induction actions as [|a actions IH]; intros s Hwf; [done|].
  apply IH. by apply perform_mru_wf.
Qed.

End coordinator.

(** ** Focus and the active-group-changed stream *)

(** C8. When a part is focused, the coordinator fires active-group-changed
    on its own stream if and only if more than one part is registered; with
    a single part nothing is fired.  The MRU list is updated either way. *)
Theorem focus_rebroadcast `{!Collaborators} (part : EditorPart) (s : EditorParts) :
  let s' := partListener part onDidFocus s in
  fired s' =
    fired s ++ (if decide (1 < size s)%nat
                then [DidActiveGroupChange (activeGroup s)] else []) ∧
  (fired s' ≠ fired s ↔ (1 < size s)%nat) ∧
  mostRecentActiveParts s' =
    Some part :: remove_first (Some part) (mostRecentActiveParts s).
Proof.
  intros s'. subst s'. rewrite partListener_mru. cbn [partListener].
  change (size (doUpdateMostRecentActive part (Some true) s)) with (size s).
  destruct (decide (1 < size s)%nat) as [Hmany|Hone].
  - split_and!; [done| |done]. split; [done|]. intros _. cbn.
    intros Heq. apply (f_equal length) in Heq. rewrite length_app in Heq.
    cbn in Heq. lia.
  - split_and!; [by rewrite app_nil_r| |done]. split; [|done].
    intros Hneq. by destruct Hneq.
Qed.

(** ** Part resolution *)

(** C1. Resolution of a group, a group identifier or an element: with
    exactly one registered part the result is the main part, whatever the
    input (known group or not); with more than one registered part, a group
    or an identifier resolves to the first registered part that has the
    group, and to the main part when no registered part has it. *)
Theorem getPart_resolution `{!Collaborators} (s : EditorParts) :
  (size s = 1%nat → ∀ input, getPart input s = mainPart s) ∧
  ((1 < size s)%nat → ∀ input n,
     input = IsIdentifier n ∨ (∃ group, input = IsGroup group ∧ id group = n) →
     (∀ (i : nat) part,
        _parts s !! i = Some part → part_hasGroup part n = true →
        (∀ (j : nat) q, (j < i)%nat → _parts s !! j = Some q →
           part_hasGroup q n = false) →
        getPart input s = part) ∧
     ((∀ part, part ∈ _parts s → part_hasGroup part n = false) →
        getPart input s = mainPart s)).
Proof.
  split.
  - intros Hone input. unfold getPart. rewrite decide_False by lia. done.
  - intros Hmany input n Hinput.
    assert (getPart input s =
      match list_find (λ part, part_hasGroup part n = true) (_parts s) with
      | Some (_, part) => part
      | None => mainPart s
      end) as ->.
    { unfold getPart. rewrite decide_True by done.
      by destruct Hinput as [->|(group & -> & <-)]. }
    split.
    + intros i part Hi Hhas Hfirst.
      assert (list_find (λ part, part_hasGroup part n = true) (_parts s)
              = Some (i, part)) as ->; [|done].
      apply list_find_Some. split_and!; [done..|].
      intros j q Hj Hlt. rewrite (Hfirst j q Hlt Hj). discriminate.
    + intros Hnone.
      assert (list_find (λ part, part_hasGroup part n = true) (_parts s) = None)
        as ->; [|done].
      apply list_find_None, Forall_forall. intros q Hq. rewrite (Hnone q Hq).
      discriminate.
Qed.

Lemma getPart_resolution_witness :
  getPart (IsIdentifier 99) Sample.one = Sample.main ∧
  getPart (IsIdentifier 4) Sample.two = Sample.aux1 ∧
  getPart (IsGroup (Sample.g 99)) Sample.two = Sample.main.
Proof.
  destruct (getPart_resolution Sample.one) as [Hone _].
  destruct (getPart_resolution Sample.two) as [_ Hmany].
  split; [apply Hone; reflexivity|].
  assert (1 < size Sample.two)%nat as Hsize by (vm_compute; lia).
  split.
  - destruct (Hmany Hsize (IsIdentifier 4) 4 (or_introl eq_refl)) as [Hfirst _].
    apply (Hfirst 1%nat); [reflexivity..|].
    intros [|j] q Hj Hq; [|lia]. injection Hq as <-. reflexivity.
  - destruct (Hmany Hsize (IsGroup (Sample.g 99)) 99
      (or_intror (ex_intro _ (Sample.g 99) (conj eq_refl eq_refl)))) as [_ Hnone].
    apply Hnone. intros part Hpart.
    repeat (apply elem_of_cons in Hpart as [->|Hpart]; [reflexivity|]).
    by apply elem_of_nil in Hpart.
Defined.

(** ** Strict resolution *)

Section strict.
Context `{!Collaborators}.

Lemma firstGroup_None parts n :
  firstGroup parts n = None ↔ ∀ part, part ∈ parts → part_getGroup part n = None.
Proof.
  induction parts as [|p parts IH]; cbn [firstGroup].
  - split; [|done]. by intros _ part ?%elem_of_nil.
  - destruct (part_getGroup p n) as [group|] eqn:Hp.
    + split; [done|]. intros Hall. rewrite <- Hp. apply Hall. by left.
    + rewrite IH. split.
      * intros Hall part [->|?]%elem_of_cons; auto.
      * intros Hall part Hpart. apply Hall. by right.
Qed.

Lemma firstGroup_Some parts n (i : nat) part group :
  parts !! i = Some part → part_getGroup part n = Some group →
  (∀ (j : nat) q, (j < i)%nat → parts !! j = Some q → part_getGroup q n = None) →
  firstGroup parts n = Some group.
Proof.
  revert i. induction parts as [|p parts IH]; intros i Hi Hgroup Hfirst; [done|].
  cbn [firstGroup]. destruct i as [|i].
  - injection Hi as ->. by rewrite Hgroup.
  - rewrite (Hfirst 0%nat p) by (done || lia).
    apply (IH i); [done..|]. intros j q Hj Hq. apply (Hfirst (S j)); [lia|done].
Qed.

Lemma getGroup_firstGroup s n :
  mainPart s ∈ _parts s → getGroup n s = firstGroup (_parts s) n.
Proof.
  intros Hmain. unfold getGroup. destruct (decide (1 < size s)%nat) as [Hmany|Hone].
  - destruct (firstGroup (_parts s) n) eqn:Hfirst; [done|].
    by apply (proj1 (firstGroup_None _ _) Hfirst).
  - unfold size in Hone. destruct (_parts s) as [|p [|q rest]]; cbn in Hone.
    + by apply elem_of_nil in Hmain.
    + apply list_elem_of_singleton in Hmain as <-. cbn.
      by destruct (part_getGroup (mainPart s) n).
    + lia.
Qed.

End strict.

(** C9. The strict resolution raises the invalid-group error exactly when
    its argument is an identifier for which no registered part has a group;
    a group view is returned as it is, and an identifier that some registered
    part has a group for yields the group of the first such part.  The
    function is evaluated once: nothing is caught or tried again. *)
Theorem assertGroupView_strict `{!Collaborators} (s : EditorParts) :
  mainPart s ∈ _parts s →
  (∀ group, assertGroupView (OfGroup group) s = Ok group) ∧
  (∀ n, assertGroupView (OfIdentifier n) s
          = Throw (Error "Invalid editor group provided!")
        ↔ ∀ part, part ∈ _parts s → part_getGroup part n = None) ∧
  (∀ n (i : nat) part group,
     _parts s !! i = Some part → part_getGroup part n = Some group →
     (∀ (j : nat) q, (j < i)%nat → _parts s !! j = Some q →
        part_getGroup q n = None) →
     assertGroupView (OfIdentifier n) s = Ok group) ∧
  (∀ input e, assertGroupView input s = Throw e →
     e = Error "Invalid editor group provided!" ∧
     ∃ n, input = OfIdentifier n ∧
       ∀ part, part ∈ _parts s → part_getGroup part n = None).
Proof.
  intros Hmain.
  assert (∀ n, assertGroupView (OfIdentifier n) s
            = Throw (Error "Invalid editor group provided!")
          ↔ ∀ part, part ∈ _parts s → part_getGroup part n = None) as Hiff.
  { intros n. unfold assertGroupView. rewrite getGroup_firstGroup by done.
    rewrite <- firstGroup_None. by destruct (firstGroup (_parts s) n). }
  split_and!; [done|done| |].
  - intros n i part group Hi Hgroup Hfirst. unfold assertGroupView.
    rewrite getGroup_firstGroup by done.
    by rewrite (firstGroup_Some _ n i part group).
  - intros [group|n] e; [done|]. intros Hthrow.
    assert (e = Error "Invalid editor group provided!") as ->.
    { unfold assertGroupView in Hthrow. destruct (getGroup n s); congruence. }
    split; [done|]. exists n. split; [done|]. by apply Hiff.
Qed.

Lemma assertGroupView_strict_witness :
  Sample.main ∈ _parts Sample.two ∧
  assertGroupView (OfIdentifier 99) Sample.two
    = Throw (Error "Invalid editor group provided!") ∧
  assertGroupView (OfIdentifier 4) Sample.two = Ok (Sample.g 4).
Proof.
  assert (Sample.main ∈ _parts Sample.two) as Hmain by (by left).
  destruct (assertGroupView_strict Sample.two Hmain) as (_ & Hnone & Hsome & _).
  split; [exact Hmain|]. split.
  - apply Hnone. intros part Hpart.
    repeat (apply elem_of_cons in Hpart as [->|Hpart]; [reflexivity|]).
    by apply elem_of_nil in Hpart.
  - apply (Hsome 4 1%nat Sample.aux1); [reflexivity..|].
    intros [|j] q Hj Hq; [|lia]. injection Hq as <-. reflexivity.
Defined.

(** ** Search across parts *)

Section search.
Context `{!Collaborators}.

(** The groups of all parts in grid-appearance order, as [getGroups]
    computes them when several parts are registered. *)
Lemma getGroups_grid s :
  (1 < size s)%nat →
  getGroups (Some GRID_APPEARANCE) s
  = Ok (concat ((λ part, part_getGroups part GRID_APPEARANCE) <$> _parts s)).
Proof. intros Hmany. unfold getGroups. by rewrite decide_True by done. Qed.

Lemma js_index_head {A} (l : list A) : js_index l 0 = head l.
Proof. by destruct l. Qed.

Lemma js_index_last {A} (l : list A) :
  js_index l (Z.of_nat (length l) - 1) = last l.
Proof.
  rewrite last_lookup. unfold js_index. destruct l as [|a l]; [done|].
  cbn [length]. rewrite decide_True by lia. f_equal. lia.
Qed.

End search.

(** C7. With more than one registered part, a search for the FIRST (LAST)
    group returns the first (last) group of the list of all groups in
    grid-appearance order, whatever the source and whichever part owns it;
    with exactly one registered part the search is the one of that part. *)
Theorem findGroup_first_last `{!Collaborators} (s : EditorParts)
    (scope : IFindGroupScope) (source : option GroupOrIdentifier)
    (wrap : option bool) :
  ((1 < size s)%nat → location scope = Some FIRST →
     getGroups (Some GRID_APPEARANCE) s
       = Ok (concat ((λ part, part_getGroups part GRID_APPEARANCE) <$> _parts s)) ∧
     findGroup scope source wrap s
       = Ok (head (concat ((λ part, part_getGroups part GRID_APPEARANCE)
                             <$> _parts s)))) ∧
  ((1 < size s)%nat → location scope = Some LAST →
     findGroup scope source wrap s
       = Ok (last (concat ((λ part, part_getGroups part GRID_APPEARANCE)
                             <$> _parts s)))) ∧
  (size s = 1%nat → mainPart s ∈ _parts s →
     _parts s = [mainPart s] ∧
     findGroup scope source wrap s
       = Ok (part_findGroup (mainPart s) scope
               (default (OfGroup (activeGroup s)) source) wrap)).
Proof.
  split_and!.
  - intros Hmany Hfirst. split; [by apply getGroups_grid|].
    unfold findGroup. rewrite decide_True by done.
    rewrite getGroups_grid by done. cbn [mbind result_bind].
    rewrite decide_True by (by left). rewrite decide_True by done.
    by rewrite js_index_head.
  - intros Hmany Hlast. unfold findGroup. rewrite decide_True by done.
    rewrite getGroups_grid by done. cbn [mbind result_bind].
    rewrite decide_True by (by right). rewrite decide_False by congruence.
    by rewrite js_index_last.
  - intros Hone Hmain. split.
    + unfold size in Hone. destruct (_parts s) as [|p [|q rest]]; try done.
      by apply list_elem_of_singleton in Hmain as <-.
    + unfold findGroup, getPart. by rewrite !decide_False by lia.
Qed.

Lemma findGroup_first_last_witness :
  findGroup {| direction := None; location := Some FIRST |}
    (Some (OfGroup (Sample.g 4))) None Sample.two = Ok (Some (Sample.g 1)) ∧
  findGroup {| direction := None; location := Some LAST |}
    (Some (OfGroup (Sample.g 1))) None Sample.two = Ok (Some (Sample.g 5)) ∧
  findGroup {| direction := None; location := Some NEXT |}
    (Some (OfGroup (Sample.g 2))) (Some true) Sample.one = Ok (Some (Sample.g 1)).
Proof.
  assert (1 < size Sample.two)%nat as Hsize by (vm_compute; lia).
  split_and!.
  - destruct (findGroup_first_last Sample.two
      {| direction := None; location := Some FIRST |}
      (Some (OfGroup (Sample.g 4))) None) as (Hfirst & _ & _).
    exact (proj2 (Hfirst Hsize eq_refl)).
  - destruct (findGroup_first_last Sample.two
      {| direction := None; location := Some LAST |}
      (Some (OfGroup (Sample.g 1))) None) as (_ & Hlast & _).
    exact (Hlast Hsize eq_refl).
  - destruct (findGroup_first_last Sample.one
      {| direction := None; location := Some NEXT |}
      (Some (OfGroup (Sample.g 2))) (Some true)) as (_ & _ & Hone).
    exact (proj2 (Hone eq_refl (list_elem_of_here _ _))).
Defined.

(** C6. With more than one registered part and a search for the NEXT
    (PREVIOUS) group: the part that owns the source is searched first,
    without wrapping.  What it finds is the result.  If and only if it finds
    nothing, the source's index in the list of all groups in grid-appearance
    order is computed and the group at index + 1 (index - 1) is the result;
    only when there is none at that index, and only when wrapping is asked
    for, the result is the group at the opposite end of the full list.  The
    result depends on the part's own search only through the call without
    wrapping.  (An identifier that names no group makes the fallback raise
    the invalid-group error.) *)
Theorem findGroup_next_previous `{!Collaborators} (s : EditorParts)
    (scope : IFindGroupScope) (source : option GroupOrIdentifier)
    (wrap : option bool) :
  (1 < size s)%nat →
  location scope = Some NEXT ∨ location scope = Some PREVIOUS →
  ∀ src groups,
  src = default (OfGroup (activeGroup s)) source →
  groups = concat ((λ part, part_getGroups part GRID_APPEARANCE) <$> _parts s) →
  match part_findGroup (getPart (widen src) s) scope src (Some false) with
  | Some group => findGroup scope source wrap s = Ok (Some group)
  | None =>
      match assertGroupView src s with
      | Throw e => findGroup scope source wrap s = Throw e
      | Ok sourceGroup =>
          findGroup scope source wrap s =
            Ok (if decide (location scope = Some NEXT) then
                  match js_index groups (indexOf groups sourceGroup + 1) with
                  | Some nextGroup => Some nextGroup
                  | None => if truthy wrap then head groups else None
                  end
                else
                  match js_index groups (indexOf groups sourceGroup - 1) with
                  | Some previousGroup => Some previousGroup
                  | None => if truthy wrap then last groups else None
                  end) ∧
          ∀ i : nat, indexOf groups sourceGroup = Z.of_nat i →
            findGroup scope source wrap s =
              Ok (if decide (location scope = Some NEXT) then
                    match groups !! S i with
                    | Some nextGroup => Some nextGroup
                    | None => if truthy wrap then head groups else None
                    end
                  else
                    match i with
                    | O => if truthy wrap then last groups else None
                    | S j => groups !! j
                    end)
      end
  end.
Proof.
  intros Hmany Hloc src groups -> ->. unfold findGroup.
  rewrite decide_True by done. rewrite getGroups_grid by done.
  cbn [mbind result_bind].
  rewrite decide_False by (intros [?|?]; destruct Hloc; congruence).
  destruct (part_findGroup _ _ _ (Some false)) as [group|]; [done|].
  rewrite decide_True by done.
  destruct (assertGroupView _ s) as [sourceGroup|e]; [|done].
  cbn [mbind result_bind]. rewrite js_index_head, js_index_last.
  set (groups := concat _).
  assert (∀ A (o : option A) d, match o with Some a => Ok (Some a) | None => Ok d end
            = Ok (match o with Some a => Some a | None => d end)) as Hmatch
    by (by intros A [a|] d).
  rewrite !Hmatch. split; [by destruct (decide _)|].
  intros i Hi. rewrite Hi. pose proof (indexOf_range groups sourceGroup) as Hrange.
  destruct (decide (location scope = Some NEXT)).
  - replace (Z.of_nat i + 1) with (Z.of_nat (S i)) by lia.
    by rewrite js_index_lookup.
  - destruct i as [|j]; [done|].
    replace (Z.of_nat (S j) - 1) with (Z.of_nat j) by lia.
    rewrite js_index_lookup.
    destruct (lookup_lt_is_Some_2 groups j) as [group Hgroup]; [lia|].
    by rewrite Hgroup.
Qed.

Lemma findGroup_next_previous_witness :
  findGroup {| direction := None; location := Some NEXT |}
    (Some (OfGroup (Sample.g 2))) None Sample.two = Ok (Some (Sample.g 3)) ∧
  findGroup {| direction := None; location := Some NEXT |}
    (Some (OfGroup (Sample.g 5))) (Some true) Sample.two = Ok (Some (Sample.g 1)) ∧
  findGroup {| direction := None; location := Some PREVIOUS |}
    (Some (OfGroup (Sample.g 3))) (Some false) Sample.two = Ok (Some (Sample.g 2)) ∧
  findGroup {| direction := None; location := Some PREVIOUS |}
    (Some (OfGroup (Sample.g 1))) (Some false) Sample.two = Ok None.
Proof.
  assert (1 < size Sample.two)%nat as Hsize by (vm_compute; lia).
  split_and!.
  - exact (proj1 (findGroup_next_previous Sample.two
      {| direction := None; location := Some NEXT |}
      (Some (OfGroup (Sample.g 2))) None Hsize (or_introl eq_refl)
      _ _ eq_refl eq_refl)).
  - exact (proj1 (findGroup_next_previous Sample.two
      {| direction := None; location := Some NEXT |}
      (Some (OfGroup (Sample.g 5))) (Some true) Hsize (or_introl eq_refl)
      _ _ eq_refl eq_refl)).
  - exact (proj1 (findGroup_next_previous Sample.two
      {| direction := None; location := Some PREVIOUS |}
      (Some (OfGroup (Sample.g 3))) (Some false) Hsize (or_intror eq_refl)
      _ _ eq_refl eq_refl)).
  - exact (proj1 (findGroup_next_previous Sample.two
      {| direction := None; location := Some PREVIOUS |}
      (Some (OfGroup (Sample.g 1))) (Some false) Hsize (or_intror eq_refl)
      _ _ eq_refl eq_refl)).
Defined.

(** ** Saving the state *)

(** C5. Saving with no auxiliary part registered deletes the snapshot under
    the storage key (nothing is stored under it afterwards); saving with at
    least one auxiliary part stores a snapshot with exactly one entry per
    registered part other than the main part, in registry order, and the MRU
    list as the positions of its parts in the current array of all parts.
    No other key of the memento is touched. *)
Theorem saveState_snapshot `{!Collaborators} (s : EditorParts) :
  (auxiliaryParts s = [] →
     workspaceMemento (saveState s)
       = delete EDITOR_PARTS_UI_STATE_STORAGE_KEY (workspaceMemento s) ∧
     workspaceMemento (saveState s) !! EDITOR_PARTS_UI_STATE_STORAGE_KEY = None) ∧
  (auxiliaryParts s ≠ [] →
     ∃ uiState,
       workspaceMemento (saveState s) !! EDITOR_PARTS_UI_STATE_STORAGE_KEY
         = Some uiState ∧
       auxiliary uiState = auxiliaryState <$> auxiliaryParts s ∧
       length (auxiliary uiState) = length (auxiliaryParts s) ∧
       mru uiState = indexOfSlot (_parts s) <$> mostRecentActiveParts s ∧
       ∀ (k : nat) part,
         mostRecentActiveParts s !! k = Some (Some part) → part ∈ _parts s →
         ∃ position, mru uiState !! k = Some position ∧
                     js_index (_parts s) position = Some part) ∧
  (∀ key, key ≠ EDITOR_PARTS_UI_STATE_STORAGE_KEY →
     workspaceMemento (saveState s) !! key = workspaceMemento s !! key).
Proof.
  unfold saveState, auxiliaryParts. cbn [auxiliary mru].
  rewrite length_fmap.
  destruct (filter (λ part, part ≠ mainPart s) (_parts s)) as [|a aux] eqn:Haux.
  - cbn [length]. rewrite decide_True by done. cbn [with_workspaceMemento workspaceMemento].
    split_and!; [|done|].
    + intros _. split; [done|]. apply lookup_delete_eq.
    + intros key Hkey. by rewrite lookup_delete_ne.
  - cbn [length]. rewrite decide_False by done.
    cbn [with_workspaceMemento workspaceMemento]. split_and!; [done| |].
    + intros _. eexists. split; [apply lookup_insert_eq|]. cbn [auxiliary mru].
      split_and!; [done|by rewrite length_fmap|done|].
      intros k part Hk Hpart. exists (indexOf (_parts s) part). split.
      * rewrite list_lookup_fmap, Hk. done.
      * by apply indexOf_lookup.
    + intros key Hkey. by rewrite lookup_insert_ne.
Qed.

Lemma saveState_snapshot_witness :
  workspaceMemento (saveState Sample.one) !! EDITOR_PARTS_UI_STATE_STORAGE_KEY
    = None ∧
  ∃ uiState,
    workspaceMemento (saveState Sample.three) !! EDITOR_PARTS_UI_STATE_STORAGE_KEY
      = Some uiState ∧
    length (auxiliary uiState) = 2%nat ∧ mru uiState = [0].
Proof.
  destruct (saveState_snapshot Sample.one) as (Hnone & _ & _).
  destruct (saveState_snapshot Sample.three) as (_ & Hsome & _).
  split; [apply Hnone; reflexivity|].
  destruct Hsome as (uiState & Hlookup & _ & Hlength & Hmru & _); [discriminate|].
  exists uiState. split_and!; [exact Hlookup|exact Hlength|exact Hmru].
Defined.

(** ** Restoring the parts *)

Section restore.
Context `{!Collaborators}.

Lemma resolve_all_frame label settled s :
  let s' := foldl (λ s part, createAuxiliaryEditorPart_resolve label part s)
              s settled in
  mainPart s' = mainPart s ∧
  _parts s' = foldl (λ parts part, set_add part parts) (_parts s) settled ∧
  mostRecentActiveParts s' = mostRecentActiveParts s ∧
  workspaceMemento s' = workspaceMemento s ∧
  focusRequests s' = focusRequests s.
Proof.
  revert s. induction settled as [|part settled IH]; intros s; [done|].
  cbn [foldl]. cbn zeta in IH.
  destruct (IH (createAuxiliaryEditorPart_resolve label part s))
    as (-> & -> & -> & -> & ->).
  done.
Qed.

Lemma set_add_all_fresh {A} `{EqDecision A} (l settled : list A) :
  NoDup (l ++ settled) →
  foldl (λ parts part, set_add part parts) l settled = l ++ settled.
Proof.
  revert l. induction settled as [|a settled IH]; intros l Hnd.
  - by rewrite app_nil_r.
  - cbn [foldl]. unfold set_add at 2.
    apply NoDup_app in Hnd as Hparts. destruct Hparts as (_ & Hdisjoint & _).
    rewrite decide_False by (intros Hin; apply (Hdisjoint a Hin); by left).
    rewrite IH by (by rewrite <- app_assoc). by rewrite <- app_assoc.
Qed.

Lemma NoDup_set_add_all {A} `{EqDecision A} (l settled : list A) :
  NoDup l → NoDup (foldl (λ parts part, set_add part parts) l settled).
Proof.
  revert l. induction settled as [|a settled IH]; intros l Hnd; [done|].
  cbn [foldl]. by apply IH, NoDup_set_add.
Qed.

Lemma elem_of_set_add_all {A} `{EqDecision A} (l settled : list A) a :
  a ∈ l → a ∈ foldl (λ parts part, set_add part parts) l settled.
Proof.
  revert l. induction settled as [|b settled IH]; intros l Hin; [done|].
  cbn [foldl]. apply IH, elem_of_set_add. by right.
Qed.

(** [restoreParts] ends by asking the head of the MRU list for focus. *)
Lemma restoreParts_finish willRestoreState settled s :
  let restored := restoreAuxiliaryParts willRestoreState settled s in
  mainPart (restoreParts willRestoreState settled s) = mainPart restored ∧
  _parts (restoreParts willRestoreState settled s) = _parts restored ∧
  mostRecentActiveParts (restoreParts willRestoreState settled s)
    = mostRecentActiveParts restored ∧
  workspaceMemento (restoreParts willRestoreState settled s)
    = workspaceMemento restored ∧
  _isReady (restoreParts willRestoreState settled s) = true ∧
  focusRequests (restoreParts willRestoreState settled s) =
    focusRequests restored ++
      match firstOrDefault (mostRecentActiveParts restored) with
      | Some mostRecentActivePart => [part_activeGroup mostRecentActivePart]
      | None => []
      end.
Proof.
  intros restored. unfold restoreParts. fold restored.
  destruct (firstOrDefault (mostRecentActiveParts restored)); cbn;
    by rewrite ?app_nil_r.
Qed.

(** The registry and the MRU list after the restoration, by the branch
    taken. *)
Lemma restoreAuxiliaryParts_restored settled s uiState :
  workspaceMemento s !! EDITOR_PARTS_UI_STATE_STORAGE_KEY = Some uiState →
  auxiliary uiState ≠ [] →
  let parts := foldl (λ parts part, set_add part parts) (_parts s) settled in
  mainPart (restoreAuxiliaryParts true settled s) = mainPart s ∧
  _parts (restoreAuxiliaryParts true settled s) = parts ∧
  mostRecentActiveParts (restoreAuxiliaryParts true settled s) =
    (if decide (length (mru uiState) = length parts)
     then (λ position, js_index parts position) <$> mru uiState
     else Some <$> parts) ∧
  focusRequests (restoreAuxiliaryParts true settled s) = focusRequests s.
Proof.
  intros Hstate Haux parts. unfold restoreAuxiliaryParts. rewrite Hstate.
  rewrite decide_True by (by destruct (auxiliary uiState)).
  destruct (resolve_all_frame (createAuxiliaryEditorPart_request s) settled s)
    as (Hmain & Hparts & _ & _ & Hfocus). cbn zeta in Hmain, Hparts, Hfocus.
  unfold restoreMostRecentActiveParts. rewrite Hparts. fold parts.
  by destruct (decide _).
Qed.

Lemma restoreAuxiliaryParts_mainPart willRestoreState settled s :
  mainPart (restoreAuxiliaryParts willRestoreState settled s) = mainPart s.
Proof.
  unfold restoreAuxiliaryParts. destruct willRestoreState; [|done].
  destruct (workspaceMemento s !! _) as [uiState|]; [|done].
  destruct (decide _); [|done].
  destruct (resolve_all_frame (createAuxiliaryEditorPart_request s) settled s)
    as (Hmain & _). cbn zeta in Hmain.
  unfold restoreMostRecentActiveParts. by destruct (decide _).
Qed.


(** Without a snapshot to restore, nothing is created or changed. *)
Lemma restoreAuxiliaryParts_skipped willRestoreState settled s :
  (willRestoreState = false ∨
   workspaceMemento s !! EDITOR_PARTS_UI_STATE_STORAGE_KEY = None ∨
   ∃ uiState, workspaceMemento s !! EDITOR_PARTS_UI_STATE_STORAGE_KEY = Some uiState
              ∧ auxiliary uiState = []) →
  restoreAuxiliaryParts willRestoreState settled s = s.
Proof.
  unfold restoreAuxiliaryParts.
  intros [->|[->|(uiState & -> & ->)]]; [done|by destruct willRestoreState|].
  by destruct willRestoreState.
Qed.

End restore.

(** C4. During restoration, once the creation requests have settled: if the
    persisted snapshot has as many MRU entries as there are parts now, the
    MRU list becomes the saved positions, each mapped to the part at that
    position of the current array of parts; otherwise the MRU list becomes
    the array of parts itself, which is the creation order, the main part
    first and then the auxiliary parts as they were registered. *)
Theorem restoreParts_mru `{!Collaborators} (s : EditorParts)
    (settled : list EditorPart) (uiState : IEditorPartsUIState) :
  workspaceMemento s !! EDITOR_PARTS_UI_STATE_STORAGE_KEY = Some uiState →
  auxiliary uiState ≠ [] →
  ∀ s', s' = restoreParts true settled s →
  (length (mru uiState) = size s' →
     mostRecentActiveParts s'
       = (λ position, js_index (_parts s') position) <$> mru uiState) ∧
  (length (mru uiState) ≠ size s' →
     mostRecentActiveParts s' = Some <$> _parts s') ∧
  (_parts s = [mainPart s] → NoDup (mainPart s :: settled) →
     _parts s' = mainPart s :: settled).
Proof.
  intros Hstate Haux s' ->.
  destruct (restoreParts_finish true settled s) as (_ & Hparts' & Hmru' & _).
  destruct (restoreAuxiliaryParts_restored settled s uiState Hstate Haux)
    as (_ & Hparts & Hmru & _).
  cbn zeta in Hparts, Hmru, Hparts', Hmru'. unfold size.
  rewrite Hmru', Hparts', Hmru, Hparts. split_and!.
  - intros Heq. by rewrite decide_True by done.
  - intros Hne. by rewrite decide_False by done.
  - intros -> Hnd. by apply (set_add_all_fresh [_]).
Qed.

Lemma restoreParts_mru_witness :
  mostRecentActiveParts
    (restoreParts true [Sample.aux1; Sample.aux2] Sample.stored)
    = [Some Sample.aux2; Some Sample.main; Some Sample.aux1] ∧
  mostRecentActiveParts (restoreParts true [Sample.aux1] Sample.stored)
    = [Some Sample.main; Some Sample.aux1].
Proof.
  assert (workspaceMemento Sample.stored !! EDITOR_PARTS_UI_STATE_STORAGE_KEY
          = Some Sample.saved) as Hstate by reflexivity.
  assert (auxiliary Sample.saved ≠ []) as Haux by discriminate.
  split.
  - destruct (restoreParts_mru Sample.stored [Sample.aux1; Sample.aux2]
      Sample.saved Hstate Haux _ eq_refl) as (Hsame & _ & _).
    exact (Hsame eq_refl).
  - destruct (restoreParts_mru Sample.stored [Sample.aux1]
      Sample.saved Hstate Haux _ eq_refl) as (_ & Hdiffer & _).
    apply Hdiffer. vm_compute. discriminate.
Defined.

(** ** Labels of the auxiliary windows *)

Section labels.
Context `{!Collaborators}.











End labels.


(** Windows restored together were all requested before any of them was
    registered, and carry the same label until the next unregistration. *)
Example restored_windows_share_a_label :
  let s := restoreParts true [Sample.aux1; Sample.aux2] Sample.stored in
  auxiliaryParts s = [Sample.aux1; Sample.aux2] ∧
  groupsLabel s !! Sample.aux1 = Some "Window 2" ∧
  groupsLabel s !! Sample.aux2 = Some "Window 2".
Proof. by vm_compute. Qed.



(** ** The main part in the MRU list *)

Section main_in_mru.
Context `{!Collaborators}.





End main_in_mru.

(** ** The rules of the MRU list *)

Section mru_lifecycle.
Context `{!Collaborators}.



End mru_lifecycle.







(** * Further properties *)

(** ** More on arrays *)

Section more_arrays.
Context {A : Type} `{EqDecision A}.
Implicit Types (l : list A) (x y : A).

Lemma remove_first_Permutation l x : x ∈ l → x :: remove_first x l ≡ₚ l.
Proof.
  induction l as [|y l IH]; [by intros ?%elem_of_nil|].
  cbn [remove_first]. destruct (decide (y = x)) as [->|Hne]; [done|].
  intros [?|Hin]%elem_of_cons; [congruence|].
  rewrite Permutation_swap. by rewrite IH.
Qed.

Lemma filter_remove_first l x :
  filter (λ y, y ≠ x) (remove_first x l) = filter (λ y, y ≠ x) l.
Proof.
  induction l as [|y l IH]; [done|]. cbn [remove_first].
  destruct (decide (y = x)) as [->|Hne].
  - by rewrite filter_cons_False by (intros Hne; by apply Hne).
  - by rewrite !filter_cons_True, IH by done.
Qed.

Lemma set_delete_set_add l x : x ∉ l → set_delete x (set_add x l) = l.
Proof.
  intros Hout. unfold set_delete, set_add. rewrite decide_False by done.
  rewrite filter_app, filter_ne_absent by done.
  rewrite filter_cons_False by (intros Hne; by apply Hne). apply app_nil_r.
Qed.

Lemma NoDup_length_le l k :
  NoDup l → (∀ x, x ∈ l → x ∈ k) → (length l ≤ length k)%nat.
Proof. intros Hnd Hsub. by apply submseteq_length, NoDup_submseteq. Qed.

End more_arrays.

(** ** The registry and the MRU list over the life of a coordinator *)

Section lifecycle.
Context `{!Collaborators}.
Implicit Types (s : EditorParts) (part : EditorPart).

Lemma restoreAuxiliaryParts_parts willRestoreState settled s :
  _parts (restoreAuxiliaryParts willRestoreState settled s) = _parts s ∨
  _parts (restoreAuxiliaryParts willRestoreState settled s)
    = foldl (λ parts part, set_add part parts) (_parts s) settled.
Proof.
  unfold restoreAuxiliaryParts. destruct willRestoreState; [|by left].
  destruct (workspaceMemento s !! _) as [uiState|]; [|by left].
  destruct (decide _); [|by left]. right.
  destruct (resolve_all_frame (createAuxiliaryEditorPart_request s) settled s)
    as (_ & Hparts & _). cbn zeta in Hparts.
  unfold restoreMostRecentActiveParts. by destruct (decide _).
Qed.

Lemma head_set_add_all {A} `{EqDecision A} (l settled : list A) a :
  head l = Some a →
  head (foldl (λ acc b, set_add b acc) l settled) = Some a.
Proof.
  revert l. induction settled as [|b settled IH]; intros l Hl; [done|].
  cbn [foldl]. by apply IH, head_set_add.
Qed.

Lemma restoreParts_registry_wf willRestoreState settled s :
  registry_wf s → registry_wf (restoreParts willRestoreState settled s).
Proof.
  intros [Hnd Hhead]. unfold registry_wf.
  destruct (restoreParts_finish willRestoreState settled s) as (-> & -> & _).
  rewrite restoreAuxiliaryParts_mainPart.
  destruct (restoreAuxiliaryParts_parts willRestoreState settled s) as [->| ->].
  - done.
  - split; [by apply NoDup_set_add_all|by apply head_set_add_all].
Qed.

Lemma mru_wf_length s : mru_wf s → (length (mostRecentActiveParts s) ≤ size s)%nat.
Proof.
  intros (Hnd & _ & Hslots). unfold size.
  rewrite <- (length_fmap Some (_parts s)). apply NoDup_length_le; [done|].
  intros slot (part & -> & Hpart)%Hslots. by apply list_elem_of_fmap_2.
Qed.

Lemma dispose_mru_wf part s :
  mru_wf s → part ≠ mainPart s → mru_wf (dispose part s).
Proof.
  intros (Hnd & Hmain & Hslots) Hne. unfold mru_wf.
  destruct (dispose_frame part s) as (-> & ->). rewrite dispose_mru.
  destruct (NoDup_remove_first (mostRecentActiveParts s) (Some part) Hnd)
    as [Hnd' Hout].
  split_and!; [done| |].
  - apply elem_of_remove_first_ne; [congruence|done].
  - intros slot Hslot. pose proof Hslot as [q [-> Hq]]%elem_of_remove_first%Hslots.
    exists q. split; [done|]. apply list_elem_of_filter. split; [|done].
    intros ->. done.
Qed.

Lemma dispose_registry_wf part s :
  registry_wf s → part ≠ mainPart s → registry_wf (dispose part s).
Proof.
  intros [Hnd Hhead] Hne. unfold registry_wf.
  destruct (dispose_frame part s) as (-> & ->).
  split; [by apply NoDup_filter|]. unfold set_delete.
  destruct (_parts s) as [|first rest]; [done|]. injection Hhead as ->.
  by rewrite filter_cons_True by done.
Qed.

Lemma notifyLabels_main main index parts s :
  groupsLabel (notifyLabels main index parts s) !! main = groupsLabel s !! main.
Proof.
  revert index s. induction parts as [|p rest IH]; intros index s; [done|].
  cbn [notifyLabels]. rewrite IH. destruct (decide (p = main)); [done|].
  cbn. by rewrite lookup_insert_ne.
Qed.

Lemma unregisterPart_main_label part s :
  groupsLabel (unregisterPart part s) !! mainPart s = groupsLabel s !! mainPart s.
Proof. unfold unregisterPart. by rewrite notifyLabels_main. Qed.

Lemma perform_main_label s a :
  registry_wf s →
  groupsLabel (perform s a) !! mainPart s = groupsLabel s !! mainPart s.
Proof.
  intros Hwf. destruct a as [part|part e|part]; cbn [perform];
    destruct (decide _) as [Hyes|Hno]; try done.
  - cbn. rewrite lookup_insert_ne; [done|]. intros ->.
    by apply Hno, registry_wf_main.
  - by destruct (partListener_frame part e s) as (_ & _ & ->).
  - unfold dispose, doUpdateMostRecentActive. cbn [with_mostRecentActiveParts groupsLabel].
    apply unregisterPart_main_label.
Qed.

End lifecycle.

(** X1. In every state of a coordinator's life (steps, then the restoration,
    then steps) the registry is a set with the main part first: it is never
    empty, it holds no part twice, and the main part is at position 0.  As
    long as nothing was restored, the MRU list holds registered parts only
    and is never longer than the registry. *)
Theorem registry_keeps_main_first `{!Collaborators} (main : EditorPart)
    (memento : gmap string IEditorPartsUIState) (before after : list Action)
    (willRestoreState : bool) (settled : list EditorPart) :
  let s0 := run (construct main memento) before in
  let s2 := run (restoreParts willRestoreState settled s0) after in
  mainPart s2 = main ∧
  NoDup (_parts s2) ∧
  _parts s2 !! 0%nat = Some main ∧
  (1 ≤ size s2)%nat ∧
  (∀ slot, slot ∈ mostRecentActiveParts s0 →
     ∃ part, slot = Some part ∧ part ∈ _parts s0) ∧
  (length (mostRecentActiveParts s0) ≤ size s0)%nat.
Proof.
  intros s0 s2.
  assert (registry_wf s2) as [Hnd Hhead].
  { apply run_registry_wf, restoreParts_registry_wf, run_registry_wf,
      construct_registry_wf. }
  assert (mainPart s2 = main) as Hmain.
  { unfold s2. rewrite run_mainPart.
    destruct (restoreParts_finish willRestoreState settled s0) as (-> & _).
    rewrite restoreAuxiliaryParts_mainPart. apply run_mainPart. }
  assert (mru_wf s0) as Hmru by apply run_mru_wf, construct_mru_wf.
  rewrite Hmain in Hhead. split_and!; [done..| | | |].
  - by destruct (_parts s2).
  - unfold size. destruct (_parts s2); [done|cbn; lia].
  - by destruct Hmru as (_ & _ & ?).
  - by apply mru_wf_length.
Qed.

(** X2. Disposing a part removes it from the registry and removes its
    first occurrence from the MRU list; the other parts and the other MRU
    entries stay, in the order they had.  When the MRU list has no
    duplicates, the part is in it no more afterwards (a list that a
    restoration rebuilt from repeated positions keeps the part's further
    occurrences).  For a part other than the main part, a registry and an
    MRU list that are well-formed stay so. *)
Theorem dispose_forgets_part `{!Collaborators} (part : EditorPart) (s : EditorParts) :
  (part ∉ _parts (dispose part s)) ∧
  _parts (dispose part s) = filter (λ q, q ≠ part) (_parts s) ∧
  mostRecentActiveParts (dispose part s)
    = remove_first (Some part) (mostRecentActiveParts s) ∧
  (Some part ∈ mostRecentActiveParts s →
     S (length (mostRecentActiveParts (dispose part s)))
       = length (mostRecentActiveParts s)) ∧
  filter (λ slot, slot ≠ Some part) (mostRecentActiveParts (dispose part s))
    = filter (λ slot, slot ≠ Some part) (mostRecentActiveParts s) ∧
  (NoDup (mostRecentActiveParts s) →
     (Some part ∉ mostRecentActiveParts (dispose part s)) ∧
     mostRecentActiveParts (dispose part s)
       = filter (λ slot, slot ≠ Some part) (mostRecentActiveParts s)) ∧
  (registry_wf s → part ≠ mainPart s → registry_wf (dispose part s)) ∧
  (mru_wf s → part ≠ mainPart s → mru_wf (dispose part s)).
Proof.
  destruct (dispose_frame part s) as (_ & Hparts).
  pose proof (dispose_mru part s) as Hlist. rewrite Hlist, Hparts.
  split_and!.
  - unfold set_delete. intros [Hq _]%list_elem_of_filter. done.
  - done.
  - done.
  - intros Hin. apply remove_first_Permutation in Hin.
    by rewrite <- Hin at 2.
  - apply filter_remove_first.
  - intros Hnd. split; [by apply NoDup_remove_first|by apply remove_first_filter].
  - apply dispose_registry_wf.
  - apply dispose_mru_wf.
Qed.

Lemma dispose_forgets_part_witness :
  let s := partListener Sample.aux1 onDidFocus Sample.three in
  mostRecentActiveParts s = [Some Sample.aux1; Some Sample.main] ∧
  mostRecentActiveParts (dispose Sample.aux1 s) = [Some Sample.main] ∧
  _parts (dispose Sample.aux1 s) = [Sample.main; Sample.aux2] ∧
  Some Sample.aux1 ∉ mostRecentActiveParts (dispose Sample.aux1 s).
Proof.
  set (s := partListener Sample.aux1 onDidFocus Sample.three).
  assert (NoDup (mostRecentActiveParts s)) as Hnd by compute_done.
  destruct (dispose_forgets_part Sample.aux1 s)
    as (_ & Hparts & Hlist & _ & _ & Hout & _).
  split_and!; [reflexivity|exact Hlist|exact Hparts|exact (proj1 (Hout Hnd))].
Defined.

(** X3. Opening a window and closing it again, whether or not it was focused
    in between, leaves the registry and the MRU list as they were. *)
Theorem create_dispose_round_trip `{!Collaborators} (part : EditorPart)
    (s : EditorParts) :
  mru_wf s → part ∉ _parts s →
  let opened := createAuxiliaryEditorPart part s in
  let focused := partListener part onDidFocus opened in
  _parts (dispose part opened) = _parts s ∧
  mostRecentActiveParts (dispose part opened) = mostRecentActiveParts s ∧
  _parts (dispose part focused) = _parts s ∧
  mostRecentActiveParts (dispose part focused) = mostRecentActiveParts s ∧
  head (mostRecentActiveParts focused) = Some (Some part).
Proof.
  intros (Hnd & Hmain & Hslots) Hfresh opened focused.
  assert (Some part ∉ mostRecentActiveParts s) as Hout.
  { intros (q & [= <-] & Hq)%Hslots. done. }
  destruct (dispose_frame part opened) as (_ & Hparts).
  destruct (dispose_frame part focused) as (_ & Hparts').
  destruct (partListener_frame part onDidFocus opened) as (_ & Hsame & _).
  fold focused in Hsame.
  assert (_parts opened = set_add part (_parts s)) as Hopened by done.
  assert (mostRecentActiveParts opened = mostRecentActiveParts s) as Hlist by done.
  split_and!.
  - rewrite Hparts, Hopened. by apply set_delete_set_add.
  - rewrite dispose_mru, Hlist. by apply remove_first_absent.
  - rewrite Hparts', Hsame, Hopened. by apply set_delete_set_add.
  - unfold focused. rewrite dispose_mru, partListener_mru, Hlist.
    cbn [remove_first]. rewrite decide_True by done.
    by apply remove_first_absent.
  - unfold focused. by rewrite partListener_mru.
Qed.

Lemma create_dispose_round_trip_witness :
  mru_wf Sample.two ∧ (Sample.aux2 ∉ _parts Sample.two) ∧
  _parts (dispose Sample.aux2
            (partListener Sample.aux2 onDidFocus
               (createAuxiliaryEditorPart Sample.aux2 Sample.two)))
    = _parts Sample.two.
Proof.
  assert (mru_wf Sample.two) as Hmru.
  { split_and!; [compute_done|by left|].
    intros slot ->%list_elem_of_singleton. exists Sample.main.
    split; [done|by left]. }
  assert (Sample.aux2 ∉ _parts Sample.two) as Hfresh by compute_done.
  destruct (create_dispose_round_trip Sample.aux2 Sample.two Hmru Hfresh)
    as (_ & _ & Hparts & _).
  split_and!; [exact Hmru|exact Hfresh|exact Hparts].
Defined.

(** X4. Focusing a part puts it at the front of the MRU list and removes
    its first earlier occurrence: the part is the head afterwards and the
    rest of the list is the old list without that occurrence.  So a part that
    was in the list moves to the front and the list is a permutation of what
    it was; a part that was not in it is added at the front; the other
    entries keep their order; a list without duplicates stays so; focusing
    the same part again changes nothing; and the registry is untouched. *)
Theorem focus_reorders `{!Collaborators} (part : EditorPart) (s : EditorParts) :
  let s' := partListener part onDidFocus s in
  mostRecentActiveParts s'
    = Some part :: remove_first (Some part) (mostRecentActiveParts s) ∧
  head (mostRecentActiveParts s') = Some (Some part) ∧
  (Some part ∈ mostRecentActiveParts s →
     mostRecentActiveParts s' ≡ₚ mostRecentActiveParts s) ∧
  (Some part ∉ mostRecentActiveParts s →
     mostRecentActiveParts s' = Some part :: mostRecentActiveParts s) ∧
  filter (λ slot, slot ≠ Some part) (mostRecentActiveParts s')
    = filter (λ slot, slot ≠ Some part) (mostRecentActiveParts s) ∧
  (NoDup (mostRecentActiveParts s) →
     NoDup (mostRecentActiveParts s') ∧
     Some part ∉ tail (mostRecentActiveParts s')) ∧
  mostRecentActiveParts (partListener part onDidFocus s')
    = mostRecentActiveParts s' ∧
  _parts s' = _parts s.
Proof.
  intros s'. unfold s'. rewrite !partListener_mru. split_and!.
  - done.
  - done.
  - apply remove_first_Permutation.
  - intros Hout. by rewrite remove_first_absent.
  - rewrite filter_cons_False by (intros Hne; by apply Hne).
    apply filter_remove_first.
  - intros Hnd.
    destruct (NoDup_remove_first _ (Some part) Hnd) as [Hnd' Hout].
    split; [by constructor|done].
  - cbn [remove_first]. by rewrite decide_True by done.
  - by destruct (partListener_frame part onDidFocus s) as (_ & -> & _).
Qed.

(** X5. The main part is never given a window label: unregistering a part
    relabels the auxiliary parts only, and in no state that a constructed
    coordinator reaches by its steps does the main part carry a label. *)
Theorem main_part_has_no_label `{!Collaborators} (main : EditorPart)
    (memento : gmap string IEditorPartsUIState) (actions : list Action) :
  groupsLabel (run (construct main memento) actions) !! main = None ∧
  ∀ part s,
    groupsLabel (unregisterPart part s) !! mainPart s
      = groupsLabel s !! mainPart s.
Proof.
  split; [|intros part s; apply unregisterPart_main_label].
  assert (∀ s, registry_wf s →
            groupsLabel (run s actions) !! mainPart s
              = groupsLabel s !! mainPart s) as Hrun.
  { induction actions as [|a actions IH]; intros s Hwf; [done|].
    cbn [run foldl]. unfold run in IH.
    rewrite <- (perform_mainPart s a).
    rewrite IH by (by apply perform_registry_wf).
    rewrite perform_mainPart. by apply perform_main_label. }
  apply (Hrun (construct main memento)), construct_registry_wf.
Qed.

(** ** Resolution always ends at a registered part *)

(** X6. For a group or an identifier, resolution never leaves the registry:
    the part it returns is registered, and it either has the group or is the
    main part; when several parts are registered and one of them has the
    group, the part returned has it. *)
Theorem getPart_registered `{!Collaborators} (s : EditorParts)
    (group : GroupOrIdentifier) :
  mainPart s ∈ _parts s →
  getPart (widen group) s ∈ _parts s ∧
  (part_hasGroup (getPart (widen group) s) (identifierOf group) = true ∨
   getPart (widen group) s = mainPart s) ∧
  ((1 < size s)%nat →
   (∃ part, part ∈ _parts s ∧ part_hasGroup part (identifierOf group) = true) →
   part_hasGroup (getPart (widen group) s) (identifierOf group) = true).
Proof.
  intros Hmain.
  assert (getPart (widen group) s =
    if decide (1 < size s)%nat then
      match list_find (λ part, part_hasGroup part (identifierOf group) = true)
              (_parts s) with
      | Some (_, part) => part
      | None => mainPart s
      end
    else mainPart s) as ->.
  { unfold getPart. by destruct group. }
  destruct (decide (1 < size s)%nat) as [Hmany|Hone].
  - destruct (list_find _ (_parts s)) as [[i part]|] eqn:Hfind.
    + apply list_find_Some in Hfind as (Hi & Hhas & _).
      split_and!; [by eapply list_elem_of_lookup_2|by left|done].
    + split_and!; [done|by right|]. intros _ (part & Hpart & Hhas).
      apply list_find_None in Hfind.
      by destruct (proj1 (Forall_forall _ _) Hfind part Hpart).
  - split_and!; [done|by right|]. intros; lia.
Qed.

Lemma getPart_registered_witness :
  mainPart Sample.two ∈ _parts Sample.two ∧
  getPart (IsIdentifier 5) Sample.two ∈ _parts Sample.two ∧
  part_hasGroup (getPart (IsIdentifier 5) Sample.two) 5 = true.
Proof.
  assert (mainPart Sample.two ∈ _parts Sample.two) as Hmain by (by left).
  destruct (getPart_registered Sample.two (OfIdentifier 5) Hmain)
    as (Hin & _ & Hhas).
  split_and!; [exact Hmain|exact Hin|].
  apply Hhas; [vm_compute; lia|].
  exists Sample.aux1. split; [compute_done|reflexivity].
Defined.

(** ** Enumerating the groups *)

Section enumeration.
Context `{!Collaborators}.

Lemma length_concat_sum {A} (ls : list (list A)) :
  length (concat ls) = sum_list (length <$> ls).
Proof.
  induction ls as [|l ls IH]; [done|]. cbn. by rewrite length_app, IH.
Qed.

Lemma registry_wf_single s :
  registry_wf s → ¬ (1 < size s)%nat → _parts s = [mainPart s].
Proof.
  intros [_ Hhead] Hone. unfold size in Hone.
  destruct (_parts s) as [|p [|q rest]]; cbn in *; [done| |lia].
  by injection Hhead as ->.
Qed.

Lemma getGroups_registry_order s order :
  registry_wf s → order ≠ MOST_RECENTLY_ACTIVE →
  getGroups (Some order) s
  = Ok (concat ((λ part, part_getGroups part order) <$> _parts s)).
Proof.
  intros Hwf Horder. unfold getGroups. cbn [default].
  destruct (decide (1 < size s)%nat) as [Hmany|Hone].
  - by destruct order.
  - rewrite (registry_wf_single s Hwf Hone). cbn. by rewrite app_nil_r.
Qed.

Lemma filter_ext_in {A} (P Q : A → Prop) `{!∀ a, Decision (P a)}
    `{!∀ a, Decision (Q a)} (l : list A) :
  (∀ a, a ∈ l → P a ↔ Q a) → filter P l = filter Q l.
Proof.
  induction l as [|a l IH]; intros Hext; [done|].
  assert (filter P l = filter Q l) as Hrest.
  { apply IH. intros b Hb. apply Hext. by right. }
  destruct (decide (P a)) as [Ha|Ha].
  - rewrite !filter_cons_True by (done || by apply Hext; [left|]). by rewrite Hrest.
  - rewrite !filter_cons_False; [by rewrite Hrest| |done].
    intros Hq. apply Ha, Hext; [by left|done].
Qed.

Lemma distinct_from_NoDup {A} `{EqDecision A} (seen l : list A) :
  NoDup l → distinct_from seen l = filter (λ a, a ∉ seen) l.
Proof.
  intros Hnd. revert seen. induction Hnd as [|a l Ha Hnd IH]; intros seen; [done|].
  cbn [distinct_from]. destruct (decide (a ∈ seen)) as [Hin|Hout].
  - rewrite filter_cons_False by (intros Hno; by apply Hno). apply IH.
  - rewrite filter_cons_True by done. f_equal. rewrite IH.
    apply filter_ext_in. intros b Hb. rewrite not_elem_of_cons.
    split; [by intros [_ ?]|]. intros Hseen. split; [|done]. by intros ->.
Qed.

Lemma distinct_from_app {A} `{EqDecision A} (seen l1 l2 : list A) :
  NoDup l1 → NoDup l2 → (∀ a, a ∈ l1 → a ∉ seen) →
  distinct_from seen (l1 ++ l2)
  = l1 ++ filter (λ a, a ∉ seen ++ l1) l2.
Proof.
  intros Hnd1 Hnd2. revert seen.
  induction Hnd1 as [|a l1 Ha Hnd1 IH]; intros seen Hfresh.
  - cbn [app]. rewrite app_nil_r. by apply distinct_from_NoDup.
  - cbn [app distinct_from]. rewrite decide_False by (apply Hfresh; by left).
    f_equal. rewrite IH.
    + f_equal. apply filter_ext_in. intros b Hb.
      rewrite !not_elem_of_app, !not_elem_of_cons. tauto.
    + intros b Hb. apply not_elem_of_cons. split; [by intros ->|].
      apply Hfresh. by right.
Qed.

Lemma distinct_app {A} `{EqDecision A} (l1 l2 : list A) :
  NoDup l1 → NoDup l2 →
  distinct (l1 ++ l2) = l1 ++ filter (λ a, a ∉ l1) l2.
Proof.
  intros Hnd1 Hnd2. unfold distinct.
  rewrite distinct_from_app by (done || intros a _; apply not_elem_of_nil).
  done.
Qed.

Lemma elem_of_distinct_from {A} `{EqDecision A} (seen l : list A) a :
  a ∈ l → a ∉ seen → a ∈ distinct_from seen l.
Proof.
  revert seen. induction l as [|b l IH]; intros seen Hin Hout;
    [by apply elem_of_nil in Hin|].
  cbn [distinct_from]. destruct (decide (b = a)) as [->|Hne].
  - rewrite decide_False by done. by left.
  - apply elem_of_cons in Hin as [?|Hin]; [congruence|].
    destruct (decide (b ∈ seen)); [by apply IH|].
    right. apply IH; [done|]. apply not_elem_of_cons. split; [congruence|done].
Qed.

Lemma defined_undefined {A} (l : list (option A)) :
  None ∈ l → defined l = Throw TypeError.
Proof.
  induction l as [|[a|] l IH]; [by intros ?%elem_of_nil| |done].
  intros [?|Hin]%elem_of_cons; [done|]. cbn [defined]. by rewrite IH.
Qed.

Lemma defined_all {A} (l : list (option A)) :
  (∀ slot, slot ∈ l → ∃ a, slot = Some a) →
  ∃ values, l = Some <$> values ∧ defined l = Ok values.
Proof.
  induction l as [|slot l IH]; intros Hall; [by exists []|].
  destruct (Hall slot) as [a ->]; [by left|].
  destruct IH as (values & -> & Hdefined); [intros ? ?; apply Hall; by right|].
  exists (a :: values). split; [done|]. cbn [defined]. by rewrite Hdefined.
Qed.

Lemma mru_wf_single s :
  mru_wf s → _parts s = [mainPart s] →
  mostRecentActiveParts s = [Some (mainPart s)].
Proof.
  intros (Hnd & Hmain & Hslots) Hparts. rewrite Hparts in Hslots.
  assert (∀ slot, slot ∈ mostRecentActiveParts s → slot = Some (mainPart s))
    as Hall.
  { intros slot (part & -> & ->%list_elem_of_singleton)%Hslots. done. }
  destruct (mostRecentActiveParts s) as [|a [|b rest]].
  - by apply elem_of_nil in Hmain.
  - by rewrite (Hall a) by (by left).
  - apply NoDup_cons in Hnd as [Hab _]. destruct Hab.
    rewrite (Hall a), (Hall b) by (by left || (right; by left)). by left.
Qed.

End enumeration.

(** X7. In creation-time and in grid-appearance order, the groups of the
    coordinator are the groups of its parts, part after part in the order of
    registration, whether one or several parts are registered; [groups] is
    this list in creation-time order, and [count] is the sum of the parts'
    own numbers of groups. *)
Theorem getGroups_in_registration_order `{!Collaborators} (s : EditorParts)
    (order : GroupsOrder) :
  registry_wf s → order ≠ MOST_RECENTLY_ACTIVE →
  getGroups (Some order) s
    = Ok (concat ((λ part, part_getGroups part order) <$> _parts s)) ∧
  groups s
    = Ok (concat ((λ part, part_getGroups part CREATION_TIME) <$> _parts s)) ∧
  count s
    = Ok (sum_list ((λ part, length (part_getGroups part CREATION_TIME))
                      <$> _parts s)).
Proof.
  intros Hwf Horder.
  assert (groups s
    = Ok (concat ((λ part, part_getGroups part CREATION_TIME) <$> _parts s)))
    as Hgroups.
  { unfold groups.
    change (getGroups None s) with (getGroups (Some CREATION_TIME) s).
    by apply getGroups_registry_order. }
  split_and!; [by apply getGroups_registry_order|done|].
  unfold count. rewrite Hgroups. cbn [mbind result_bind].
  by rewrite length_concat_sum, <- list_fmap_compose.
Qed.

Lemma getGroups_in_registration_order_witness :
  registry_wf Sample.two ∧
  getGroups (Some GRID_APPEARANCE) Sample.two
    = Ok [Sample.g 1; Sample.g 2; Sample.g 3; Sample.g 4; Sample.g 5] ∧
  count Sample.two = Ok 5%nat.
Proof.
  assert (registry_wf Sample.two) as Hwf
    by (split; [compute_done|reflexivity]).
  assert (GRID_APPEARANCE ≠ MOST_RECENTLY_ACTIVE) as Horder by discriminate.
  destruct (getGroups_in_registration_order Sample.two GRID_APPEARANCE Hwf Horder)
    as (Hgrid & _ & Hcount).
  split_and!; [exact Hwf|exact Hgrid|exact Hcount].
Defined.

(** X8. In most-recently-active order, with a registry and an MRU list as
    the coordinator keeps them, the enumeration does not fail and takes the
    parts in the order of the MRU list, followed by the registered parts that
    are not in it, in registration order; every registered part is taken
    exactly once. *)
Theorem getGroups_most_recently_active `{!Collaborators} (s : EditorParts) :
  registry_wf s → mru_wf s →
  ∃ order,
    getGroups (Some MOST_RECENTLY_ACTIVE) s
      = Ok (concat ((λ part, part_getGroups part MOST_RECENTLY_ACTIVE) <$> order)) ∧
    Some <$> order
      = mostRecentActiveParts s ++
        filter (λ slot, slot ∉ mostRecentActiveParts s) (Some <$> _parts s) ∧
    order ≡ₚ _parts s.
Proof.
  intros Hreg Hmru. pose proof Hreg as [Hnd Hhead].
  pose proof Hmru as (Hnd' & Hmain & Hslots).
  destruct (decide (1 < size s)%nat) as [Hmany|Hone].
  - set (slots := mostRecentActiveParts s ++
        filter (λ slot, slot ∉ mostRecentActiveParts s) (Some <$> _parts s)).
    destruct (defined_all slots) as (order & Horder & Hdefined).
    { intros slot [Hin|[_ Hin]%list_elem_of_filter]%elem_of_app.
      - destruct (Hslots slot Hin) as (part & -> & _). by exists part.
      - apply list_elem_of_fmap in Hin as (part & -> & _). by exists part. }
    exists order. split_and!.
    + unfold getGroups. cbn [default]. rewrite decide_True by done.
      rewrite distinct_app by (done || by apply NoDup_fmap_2; [apply _|]).
      fold slots. by rewrite Hdefined.
    + by rewrite <- Horder.
    + apply NoDup_Permutation; [|done|].
      * apply (NoDup_fmap_1 Some). rewrite <- Horder. apply NoDup_app.
        split_and!; [done| |].
        -- intros slot Hin [Hout _]%list_elem_of_filter. done.
        -- apply NoDup_filter, NoDup_fmap_2; [apply _|done].
      * intros part. rewrite <- (list_elem_of_fmap_inj Some), <- Horder.
        unfold slots. rewrite elem_of_app, list_elem_of_filter.
        rewrite (list_elem_of_fmap_inj Some). split.
        -- intros [(q & [= <-] & Hq)%Hslots|[_ ?]]; done.
        -- intros Hpart.
           destruct (decide (Some part ∈ mostRecentActiveParts s)); [by left|].
           by right.
  - pose proof (registry_wf_single s Hreg Hone) as Hparts.
    pose proof (mru_wf_single s Hmru Hparts) as Hlist.
    exists [mainPart s]. rewrite Hlist, Hparts. split_and!; [| |done].
    2:{ change (Some <$> [mainPart s]) with [Some (mainPart s)].
        rewrite filter_cons_False; [done|]. intros Hout. apply Hout. by left. }
    + unfold getGroups. cbn [default]. rewrite decide_False by done.
      cbn. by rewrite app_nil_r.
Qed.

Lemma getGroups_most_recently_active_witness :
  let s := partListener Sample.aux1 onDidFocus Sample.three in
  registry_wf s ∧ mru_wf s ∧
  ∃ order,
    Some <$> order = [Some Sample.aux1; Some Sample.main; Some Sample.aux2] ∧
    order ≡ₚ _parts s.
Proof.
  set (s := partListener Sample.aux1 onDidFocus Sample.three).
  assert (registry_wf s) as Hreg by (split; [compute_done|reflexivity]).
  assert (mru_wf s) as Hmru.
  { split_and!; [compute_done|compute_done|].
    intros slot Hslot. change (slot ∈ [Some Sample.aux1; Some Sample.main]) in Hslot.
    apply elem_of_cons in Hslot as [->|Hslot]; [exists Sample.aux1; split; [done|compute_done]|].
    apply list_elem_of_singleton in Hslot as ->.
    exists Sample.main. split; [done|compute_done]. }
  destruct (getGroups_most_recently_active s Hreg Hmru)
    as (order & _ & Horder & Hperm).
  split_and!; [exact Hreg|exact Hmru|].
  exists order. split; [exact Horder|exact Hperm].
Defined.

(** X9. An undefined slot in the MRU list makes the enumeration in
    most-recently-active order fail with a type error as soon as several
    parts are registered; the other orders, and any order with a single
    part, never fail. *)
Theorem getGroups_undefined_slot `{!Collaborators} (s : EditorParts) :
  ((1 < size s)%nat → None ∈ mostRecentActiveParts s →
     getGroups (Some MOST_RECENTLY_ACTIVE) s = Throw TypeError) ∧
  (∀ order, (size s ≤ 1)%nat ∨ order ≠ MOST_RECENTLY_ACTIVE →
     ∃ all, getGroups (Some order) s = Ok all).
Proof.
  split.
  - intros Hmany Hnone. unfold getGroups. cbn [default].
    rewrite decide_True by done. rewrite defined_undefined; [done|].
    apply elem_of_distinct_from; [|apply not_elem_of_nil].
    apply elem_of_app. by left.
  - intros order Hcase. unfold getGroups. cbn [default].
    destruct (decide (1 < size s)%nat) as [Hmany|Hone];
      [|eexists; reflexivity].
    destruct Hcase as [?|Horder]; [lia|].
    destruct order; [eexists; reflexivity|done|eexists; reflexivity].
Qed.

(** ** When the search fails *)

(** X10. A search throws only what the source part's own search throws or
    the invalid-group error.  What the part's search throws passes through:
    from the call without wrapping when several parts are registered and the
    search is not for the FIRST or LAST group, and from the final call, which
    is made with a single part or for a scope that is neither of FIRST, LAST,
    NEXT and PREVIOUS.  The invalid-group error is raised exactly when several
    parts are registered, the search is for the NEXT or PREVIOUS group, the
    part's search without wrapping returns nothing, the source is given as an
    identifier and no registered part has a group for it.  For parts whose
    search does not throw this is [findGroup].  (The parts' [hasGroup],
    [getGroup] and [getGroups] are taken to return normally.) *)
Theorem findGroup_throws_exactly `{!Collaborators}
    (search : EditorPart → IFindGroupScope → GroupOrIdentifier → option bool →
              result (option IEditorGroupView))
    (s : EditorParts) (scope : IFindGroupScope)
    (source : option GroupOrIdentifier) (wrap : option bool) :
  mainPart s ∈ _parts s →
  ∀ src sourcePart,
  src = default (OfGroup (activeGroup s)) source →
  sourcePart = getPart (widen src) s →
  findGroup_throwing (λ part scope source wrap,
                        Ok (part_findGroup part scope source wrap))
    scope source wrap s
    = findGroup scope source wrap s ∧
  ∀ e, findGroup_throwing search scope source wrap s = Throw e ↔
    ((size s ≤ 1)%nat ∧ search sourcePart scope src wrap = Throw e) ∨
    ((1 < size s)%nat ∧
     ¬ (location scope = Some FIRST ∨ location scope = Some LAST) ∧
     search sourcePart scope src (Some false) = Throw e) ∨
    ((1 < size s)%nat ∧
     ¬ (location scope = Some FIRST ∨ location scope = Some LAST) ∧
     ¬ (location scope = Some NEXT ∨ location scope = Some PREVIOUS) ∧
     search sourcePart scope src (Some false) = Ok None ∧
     search sourcePart scope src wrap = Throw e) ∨
    ((1 < size s)%nat ∧
     (location scope = Some NEXT ∨ location scope = Some PREVIOUS) ∧
     search sourcePart scope src (Some false) = Ok None ∧
     e = Error "Invalid editor group provided!" ∧
     ∃ n, source = Some (OfIdentifier n) ∧
          ∀ part, part ∈ _parts s → part_getGroup part n = None).
Proof.
  intros Hmain src sourcePart Hsrc HsourcePart. split; [reflexivity|].
  intros e. unfold findGroup_throwing. rewrite <- Hsrc, <- HsourcePart.
  destruct (decide (1 < size s)%nat) as [Hmany|Hone].
  2:{ split; [intros He; left; split; [lia|done]|].
      intros [[_ ?]|[(? & _)|[(? & _)|(? & _)]]]; [done|lia..]. }
  rewrite getGroups_grid by done. cbn [mbind result_bind].
  set (all := concat _).
  destruct (decide (location scope = Some FIRST ∨ location scope = Some LAST))
    as [Hends|Hends].
  { split; [done|].
    intros [[? _]|[(_ & ? & _)|[(_ & ? & _)|(_ & Hloc & _)]]]; [lia|done..|].
    destruct Hends, Hloc; congruence. }
  destruct (search sourcePart scope src (Some false)) as [[group|]|e'] eqn:Hlocal;
    cbn [mbind result_bind].
  - split; [done|].
    intros [[? _]|[(_ & _ & ?)|[(_ & _ & _ & ? & _)|(_ & _ & ? & _)]]];
      [lia|done..].
  - destruct (decide (location scope = Some NEXT ∨ location scope = Some PREVIOUS))
      as [Hloc|Hloc].
    + assert (∀ g : IEditorGroupView, ¬
        (let index := indexOf all g in
         if decide (location scope = Some NEXT) then
           match js_index all (index + 1) with
           | Some nextGroup => Ok (Some nextGroup)
           | None => Ok (if truthy wrap then js_index all 0 else None)
           end
         else
           match js_index all (index - 1) with
           | Some previousGroup => Ok (Some previousGroup)
           | None =>
               Ok (if truthy wrap then js_index all (Z.of_nat (length all) - 1)
                   else None)
           end) = Throw e) as Hok.
      { intros g He. cbn zeta in He.
        destruct (decide _); destruct (js_index all _); discriminate. }
      assert (∀ n, source = Some (OfIdentifier n) → src = OfIdentifier n)
        as Hid by (by intros n ->).
      unfold assertGroupView. destruct src as [g|n] eqn:Hshape.
      * cbn [mbind result_bind]. split; [intros He; by destruct (Hok g)|].
        intros [[? _]|[(_ & _ & ?)|[(_ & _ & ? & _)|(_ & _ & _ & _ & n & Hn & _)]]];
          [lia|done|done|]. by specialize (Hid n Hn).
      * assert (source = Some (OfIdentifier n)) as Hsource.
        { destruct source as [[?|?]|]; cbn in Hsrc; congruence. }
        rewrite getGroup_firstGroup by done.
        destruct (firstGroup (_parts s) n) as [g|] eqn:Hfirst;
          cbn [mbind result_bind].
        -- split; [intros He; by destruct (Hok g)|].
           intros [[? _]|[(_ & _ & ?)|[(_ & _ & ? & _)|(_ & _ & _ & _ & m & Hm & Hnone)]]];
             [lia|done|done|].
           specialize (Hid m Hm). injection Hid as <-.
           apply firstGroup_None in Hnone. congruence.
        -- split.
           ++ intros [= <-]. right; right; right. split_and!; [done..|].
              exists n. split; [done|]. by apply firstGroup_None.
           ++ intros [[? _]|[(_ & _ & ?)|[(_ & _ & ? & _)|(_ & _ & _ & -> & _)]]];
                [lia|done|done|done].
    + split.
      * intros He. right; right; left. by split_and!.
      * intros [[? _]|[(_ & _ & ?)|[(_ & _ & _ & _ & ?)|(_ & ? & _)]]];
          [lia|done|done|done].
  - split.
    + intros [= <-]. right; left. by split_and!.
    + intros [[? _]|[(_ & _ & ?)|[(_ & _ & _ & ? & _)|(_ & _ & ? & _)]]];
        [lia|congruence|done|done].
Qed.

Lemma findGroup_throws_exactly_witness :
  mainPart Sample.two ∈ _parts Sample.two ∧
  findGroup_throwing (λ _ _ _ _, Ok None)
    {| direction := None; location := Some PREVIOUS |}
    (Some (OfIdentifier 99)) None Sample.two
    = Throw (Error "Invalid editor group provided!") ∧
  findGroup_throwing (λ _ _ _ _, Throw TypeError)
    {| direction := None; location := Some NEXT |}
    (Some (OfIdentifier 1)) None Sample.two = Throw TypeError.
Proof.
  assert (mainPart Sample.two ∈ _parts Sample.two) as Hmain by (by left).
  assert (1 < size Sample.two)%nat as Hsize by (vm_compute; lia).
  split; [exact Hmain|]. split.
  - apply (findGroup_throws_exactly (λ _ _ _ _, Ok None) Sample.two
      {| direction := None; location := Some PREVIOUS |} (Some (OfIdentifier 99))
      None Hmain _ _ eq_refl eq_refl).
    right; right; right. split_and!; [exact Hsize|by right|reflexivity..|].
    exists 99. split; [reflexivity|]. intros part Hpart.
    repeat (apply elem_of_cons in Hpart as [->|Hpart]; [reflexivity|]).
    by apply elem_of_nil in Hpart.
  - apply (findGroup_throws_exactly (λ _ _ _ _, Throw TypeError) Sample.two
      {| direction := None; location := Some NEXT |} (Some (OfIdentifier 1))
      None Hmain _ _ eq_refl eq_refl).
    right; left. split_and!; [exact Hsize| |reflexivity].
    intros [?|?]; discriminate.
Defined.

(** X11. When several parts are registered, the search in the source's part
    finds nothing and the source group is in no part's list of groups, its
    index is -1: the NEXT group is then the very first group of all, with or
    without wrapping, and the PREVIOUS group is the very last one with
    wrapping and none without. *)
Theorem findGroup_from_unlisted_group `{!Collaborators} (s : EditorParts)
    (scope : IFindGroupScope) (group : IEditorGroupView) (wrap : option bool) :
  (1 < size s)%nat →
  group ∉ concat ((λ part, part_getGroups part GRID_APPEARANCE) <$> _parts s) →
  part_findGroup (getPart (IsGroup group) s) scope (OfGroup group) (Some false)
    = None →
  (location scope = Some NEXT →
     findGroup scope (Some (OfGroup group)) wrap s
       = Ok (head (concat ((λ part, part_getGroups part GRID_APPEARANCE)
                             <$> _parts s)))) ∧
  (location scope = Some PREVIOUS →
     findGroup scope (Some (OfGroup group)) wrap s
       = Ok (if truthy wrap
             then last (concat ((λ part, part_getGroups part GRID_APPEARANCE)
                                  <$> _parts s))
             else None)).
Proof.
  intros Hmany Hout Hlocal. apply indexOf_absent in Hout.
  unfold findGroup. rewrite decide_True by done.
  rewrite getGroups_grid by done. cbn [mbind result_bind].
  change (default (OfGroup (activeGroup s)) (Some (OfGroup group)))
    with (OfGroup group).
  change (widen (OfGroup group)) with (IsGroup group).
  rewrite Hlocal. cbn [assertGroupView mbind result_bind]. rewrite Hout.
  split; intros Hloc.
  - rewrite decide_False by (intros [?|?]; congruence).
    rewrite decide_True by (by left). rewrite decide_True by done.
    change (-1 + 1) with 0. rewrite js_index_head.
    destruct (head _) eqn:Hhead; [done|]. by destruct (truthy wrap).
  - rewrite decide_False by (intros [?|?]; congruence).
    rewrite decide_True by (by right). rewrite decide_False by congruence.
    change (js_index _ (-1 - 1)) with (@None IEditorGroupView).
    by rewrite js_index_last.
Qed.

Lemma findGroup_from_unlisted_group_witness :
  @findGroup strictCollaborators {| direction := None; location := Some NEXT |}
    (Some (OfGroup (Sample.g 9))) None Sample.two = Ok (Some (Sample.g 1)) ∧
  @findGroup strictCollaborators {| direction := None; location := Some PREVIOUS |}
    (Some (OfGroup (Sample.g 9))) (Some true) Sample.two = Ok (Some (Sample.g 5)).
Proof.
  assert (1 < size Sample.two)%nat as Hsize by (vm_compute; lia).
  assert (Sample.g 9 ∉
    concat ((λ part, @part_getGroups strictCollaborators part GRID_APPEARANCE)
              <$> _parts Sample.two))
    as Hout by compute_done.
  split.
  - destruct (@findGroup_from_unlisted_group strictCollaborators Sample.two
      {| direction := None; location := Some NEXT |} (Sample.g 9) None
      Hsize Hout eq_refl) as [Hnext _].
    exact (Hnext eq_refl).
  - destruct (@findGroup_from_unlisted_group strictCollaborators Sample.two
      {| direction := None; location := Some PREVIOUS |} (Sample.g 9) (Some true)
      Hsize Hout eq_refl) as [_ Hprevious].
    exact (Hprevious eq_refl).
Defined.

(** ** Saving and restoring *)

(** X12. Saving changes the memento only, and saving again right away
    changes nothing more. *)
Theorem saveState_idempotent `{!Collaborators} (s : EditorParts) :
  saveState (saveState s) = saveState s ∧
  mainPart (saveState s) = mainPart s ∧
  _parts (saveState s) = _parts s ∧
  mostRecentActiveParts (saveState s) = mostRecentActiveParts s ∧
  groupsLabel (saveState s) = groupsLabel s ∧
  fired (saveState s) = fired s ∧
  focusRequests (saveState s) = focusRequests s ∧
  _isReady (saveState s) = _isReady s.
Proof.
  split; [|unfold saveState; by destruct (decide _)].
  unfold saveState at 2 3.
  destruct (decide _) as [Hnone|Hsome]; unfold saveState;
    cbn [with_workspaceMemento mainPart _parts mostRecentActiveParts
         workspaceMemento _isReady groupsLabel fired focusRequests].
  - rewrite decide_True by done. unfold with_workspaceMemento. cbn.
    by rewrite delete_delete_eq.
  - rewrite decide_False by done. unfold with_workspaceMemento. cbn.
    by rewrite insert_insert_eq.
Qed.

Section persistence.
Context `{!Collaborators}.
Implicit Types (s : EditorParts).

Lemma registry_wf_parts s :
  registry_wf s → _parts s = mainPart s :: auxiliaryParts s.
Proof.
  intros [Hnd Hhead]. unfold auxiliaryParts.
  destruct (_parts s) as [|first rest]; [done|]. injection Hhead as ->.
  apply NoDup_cons in Hnd as [Hmain _].
  rewrite filter_cons_False by (intros Hne; by apply Hne).
  by rewrite filter_ne_absent.
Qed.

Lemma saveState_stored s :
  auxiliaryParts s ≠ [] →
  workspaceMemento (saveState s) !! EDITOR_PARTS_UI_STATE_STORAGE_KEY
  = Some {| auxiliary := auxiliaryState <$> auxiliaryParts s;
            mru := indexOfSlot (_parts s) <$> mostRecentActiveParts s |}.
Proof.
  intros Haux. unfold saveState, auxiliaryParts in *. cbn [auxiliary].
  rewrite decide_False by (rewrite length_fmap; by destruct (filter _ _)).
  apply lookup_insert_eq.
Qed.

(** A position saved for a registered part leads back to the part. *)
Lemma indexOfSlot_lookup (parts : list EditorPart) slot :
  (∃ part, slot = Some part ∧ part ∈ parts) →
  js_index parts (indexOfSlot parts slot) = slot.
Proof. intros (part & -> & Hpart). by apply indexOf_lookup. Qed.

Lemma js_index_invalid {A} (l : list A) (i : Z) :
  ¬ (0 ≤ i < Z.of_nat (length l)) → js_index l i = None.
Proof.
  intros Hout. unfold js_index. destruct (decide _); [|done].
  apply lookup_ge_None_2. lia.
Qed.

Lemma resolve_all_labels label settled s part :
  groupsLabel (foldl (λ s part, createAuxiliaryEditorPart_resolve label part s)
                 s settled) !! part
  = if decide (part ∈ settled) then Some label else groupsLabel s !! part.
Proof.
  revert s. induction settled as [|a settled IH]; intros s; [done|].
  cbn [foldl]. rewrite IH.
  destruct (decide (part ∈ settled)) as [Hin|Hout].
  - rewrite decide_True by (by right). done.
  - cbn. destruct (decide (part = a)) as [->|Hne].
    + rewrite decide_True by (by left). apply lookup_insert_eq.
    + rewrite decide_False by (intros [?|?]%elem_of_cons; done).
      by rewrite lookup_insert_ne.
Qed.

Lemma resolve_all_fired label settled s :
  fired (foldl (λ s part, createAuxiliaryEditorPart_resolve label part s)
           s settled)
  = fired s ++
    concat ((λ part, [DidAddGroup (part_activeGroup part);
                      DidCreateAuxiliaryEditorPart part]) <$> settled).
Proof.
  revert s. induction settled as [|a settled IH]; intros s.
  - by rewrite app_nil_r.
  - cbn [foldl]. rewrite IH. cbn. by rewrite <- !app_assoc.
Qed.

(** What the restoration leaves of the labels and the events. *)
Lemma restoreParts_effects settled s uiState :
  workspaceMemento s !! EDITOR_PARTS_UI_STATE_STORAGE_KEY = Some uiState →
  auxiliary uiState ≠ [] →
  groupsLabel (restoreParts true settled s)
    = groupsLabel (foldl (λ acc part, createAuxiliaryEditorPart_resolve
                               (getGroupsLabel (size s)) part acc)
                     s settled) ∧
  fired (restoreParts true settled s)
    = fired (foldl (λ acc part, createAuxiliaryEditorPart_resolve
                        (getGroupsLabel (size s)) part acc)
               s settled).
Proof.
  intros Hstate Haux. unfold restoreParts, restoreAuxiliaryParts.
  rewrite Hstate. rewrite decide_True by (by destruct (auxiliary uiState)).
  cbn zeta. unfold createAuxiliaryEditorPart_request.
  set (s1 := foldl _ s settled).
  unfold restoreMostRecentActiveParts.
  destruct (decide _); cbn;
    match goal with |- context [firstOrDefault ?l] =>
      by destruct (firstOrDefault l) end.
Qed.

End persistence.

(** X13. What is saved can be restored: with a registry and an MRU list as
    the coordinator keeps them and at least one auxiliary part, the saved
    positions are pairwise distinct valid indices into the array of parts,
    no more of them than there are parts, each leading back to the MRU entry
    it was saved for; and there is one saved window less than there are
    parts. *)
Theorem saveState_positions_restorable `{!Collaborators} (s : EditorParts) :
  registry_wf s → mru_wf s → auxiliaryParts s ≠ [] →
  ∃ uiState,
    workspaceMemento (saveState s) !! EDITOR_PARTS_UI_STATE_STORAGE_KEY
      = Some uiState ∧
    NoDup (mru uiState) ∧
    valid_positions (size s) (mru uiState) ∧
    (length (mru uiState) ≤ size s)%nat ∧
    S (length (auxiliary uiState)) = size s ∧
    (λ position, js_index (_parts s) position) <$> mru uiState
      = mostRecentActiveParts s.
Proof.
  intros Hreg Hmru Haux. pose proof Hmru as (Hnd & _ & Hslots).
  eexists. split; [by apply saveState_stored|]. cbn [mru auxiliary].
  assert ((λ position, js_index (_parts s) position)
            <$> (indexOfSlot (_parts s) <$> mostRecentActiveParts s)
          = mostRecentActiveParts s) as Hback.
  { rewrite <- list_fmap_compose.
    rewrite <- (list_fmap_id (mostRecentActiveParts s)) at 2.
    apply list_fmap_ext. intros k slot Hk. cbn.
    apply indexOfSlot_lookup, Hslots. by eapply list_elem_of_lookup_2. }
  split_and!.
  - apply (NoDup_fmap_1 (λ position, js_index (_parts s) position)).
    by rewrite Hback.
  - intros i (slot & -> & Hslot)%list_elem_of_fmap.
    destruct (Hslots slot Hslot) as (part & -> & Hpart). cbn.
    pose proof (indexOf_range (_parts s) part) as Hrange.
    apply indexOf_lookup, js_index_Some in Hpart as [? _]. unfold size. lia.
  - rewrite length_fmap. by apply mru_wf_length.
  - rewrite length_fmap. unfold size. by rewrite (registry_wf_parts s Hreg).
  - done.
Qed.

Lemma saveState_positions_restorable_witness :
  registry_wf Sample.three ∧ mru_wf Sample.three ∧
  auxiliaryParts Sample.three ≠ [] ∧
  ∃ uiState,
    workspaceMemento (saveState Sample.three) !! EDITOR_PARTS_UI_STATE_STORAGE_KEY
      = Some uiState ∧
    S (length (auxiliary uiState)) = 3%nat.
Proof.
  assert (registry_wf Sample.three) as Hreg
    by (split; [compute_done|reflexivity]).
  assert (mru_wf Sample.three) as Hmru.
  { split_and!; [compute_done|by left|].
    intros slot ->%list_elem_of_singleton. exists Sample.main.
    split; [done|by left]. }
  assert (auxiliaryParts Sample.three ≠ []) as Haux by discriminate.
  destruct (saveState_positions_restorable Sample.three Hreg Hmru Haux)
    as (uiState & Hstored & _ & _ & _ & Hlength & _).
  split_and!; [exact Hreg|exact Hmru|exact Haux|].
  exists uiState. split; [exact Hstored|exact Hlength].
Defined.

(** X14. An MRU entry that is undefined, or a part that is not registered,
    is saved as position -1, and position -1 is restored as an undefined
    entry. *)
Theorem saveState_unknown_entry `{!Collaborators} (s : EditorParts) (k : nat)
    (slot : option EditorPart) :
  auxiliaryParts s ≠ [] →
  mostRecentActiveParts s !! k = Some slot →
  (slot = None ∨ ∃ part, slot = Some part ∧ part ∉ _parts s) →
  ∃ uiState,
    workspaceMemento (saveState s) !! EDITOR_PARTS_UI_STATE_STORAGE_KEY
      = Some uiState ∧
    mru uiState !! k = Some (-1) ∧
    ∀ parts : list EditorPart, js_index parts (-1) = None.
Proof.
  intros Haux Hk Hslot. eexists. split; [by apply saveState_stored|].
  cbn [mru]. split; [|done]. rewrite list_lookup_fmap, Hk. cbn. f_equal.
  destruct Hslot as [->|(part & -> & Hout)]; [done|].
  by apply indexOf_absent.
Qed.

Lemma saveState_unknown_entry_witness :
  let s := restoreParts true [Sample.aux1] storedStale in
  mostRecentActiveParts s = [None; Some Sample.main] ∧
  ∃ uiState,
    workspaceMemento (saveState s) !! EDITOR_PARTS_UI_STATE_STORAGE_KEY
      = Some uiState ∧
    mru uiState !! 0%nat = Some (-1).
Proof.
  set (s := restoreParts true [Sample.aux1] storedStale).
  split; [reflexivity|].
  assert (auxiliaryParts s ≠ []) as Haux by discriminate.
  destruct (saveState_unknown_entry s 0 None Haux eq_refl (or_introl eq_refl))
    as (uiState & Hstored & Hposition & _).
  exists uiState. split; [exact Hstored|exact Hposition].
Defined.



Section restoration.
Context `{!Collaborators}.

Lemma getGroups_mru_throws s :
  (1 < size s)%nat → None ∈ mostRecentActiveParts s →
  getGroups (Some MOST_RECENTLY_ACTIVE) s = Throw TypeError.
Proof.
  intros Hmany Hnone. unfold getGroups. cbn [default].
  rewrite decide_True by done. rewrite defined_undefined; [done|].
  apply elem_of_distinct_from; [|apply not_elem_of_nil].
  apply elem_of_app. by left.
Qed.

Lemma perform_keeps_undefined s a :
  None ∈ mostRecentActiveParts s → None ∈ mostRecentActiveParts (perform s a).
Proof.
  intros Hnone. destruct a as [part|part e|part]; cbn [perform];
    destruct (decide _); try done.
  - rewrite partListener_mru. destruct e; try done.
    right. by apply elem_of_remove_first_ne.
  - rewrite dispose_mru. by apply elem_of_remove_first_ne.
Qed.

Lemma run_keeps_undefined s actions :
  None ∈ mostRecentActiveParts s → None ∈ mostRecentActiveParts (run s actions).
Proof.
  revert s. induction actions as [|a actions IH]; intros s Hnone; [done|].
  apply IH. by apply perform_keeps_undefined.
Qed.

End restoration.

(** X16. When there is nothing to restore (the main part does not restore
    its state, or no snapshot is stored, or the stored snapshot lists no
    window) the restoration creates no part and leaves the registry, the MRU
    list, the labels, the events and the memento as they are, whatever the
    factory would have delivered; it still asks the active group of the MRU
    head, if defined, to take focus, and marks the coordinator ready. *)
Theorem restoreParts_nothing_to_restore `{!Collaborators}
    (willRestoreState : bool) (settled : list EditorPart) (s : EditorParts) :
  (willRestoreState = false ∨
   workspaceMemento s !! EDITOR_PARTS_UI_STATE_STORAGE_KEY = None ∨
   ∃ uiState,
     workspaceMemento s !! EDITOR_PARTS_UI_STATE_STORAGE_KEY = Some uiState ∧
     auxiliary uiState = []) →
  ∀ s', s' = restoreParts willRestoreState settled s →
  _parts s' = _parts s ∧
  mostRecentActiveParts s' = mostRecentActiveParts s ∧
  groupsLabel s' = groupsLabel s ∧
  fired s' = fired s ∧
  workspaceMemento s' = workspaceMemento s ∧
  _isReady s' = true ∧
  focusRequests s' =
    focusRequests s ++
      match firstOrDefault (mostRecentActiveParts s) with
      | Some mostRecentActivePart => [part_activeGroup mostRecentActivePart]
      | None => []
      end.
Proof.
  intros Hskip s' ->. unfold restoreParts.
  rewrite (restoreAuxiliaryParts_skipped willRestoreState settled s Hskip).
  destruct (firstOrDefault (mostRecentActiveParts s)); cbn;
    by rewrite ?app_nil_r.
Qed.

Lemma restoreParts_nothing_to_restore_witness :
  let s' := restoreParts true [Sample.aux1] Sample.one in
  workspaceMemento Sample.one !! EDITOR_PARTS_UI_STATE_STORAGE_KEY = None ∧
  _parts s' = [Sample.main] ∧ _isReady s' = true ∧
  focusRequests s' = [Sample.g 1].
Proof.
  assert (workspaceMemento Sample.one !! EDITOR_PARTS_UI_STATE_STORAGE_KEY = None)
    as Hnone by reflexivity.
  destruct (restoreParts_nothing_to_restore true [Sample.aux1] Sample.one
    (or_intror (or_introl Hnone)) _ eq_refl)
    as (Hparts & _ & _ & _ & _ & Hready & Hfocus).
  split_and!; [exact Hnone|exact Hparts|exact Hready|exact Hfocus].
Defined.

(** X17. A saved position that is no index into the array of parts (it can
    be one when fewer windows could be recreated than were saved) is rebuilt
    as an undefined MRU entry.  No later part event, creation or disposal
    removes an undefined entry, so from then on, whenever several parts are
    registered, enumerating the groups in most-recently-active order fails
    with a type error.  The step of the restoration that follows the parts'
    readiness asks the active group of the MRU head as it is then to take
    focus: when the head is then undefined (as it is when the first saved
    position is out of range and no part was focused since the rebuild) no
    group is asked, although the coordinator is marked ready; a defined head
    is asked. *)
Theorem restoreParts_position_out_of_range `{!Collaborators} (s : EditorParts)
    (settled : list EditorPart) (uiState : IEditorPartsUIState) :
  workspaceMemento s !! EDITOR_PARTS_UI_STATE_STORAGE_KEY = Some uiState →
  auxiliary uiState ≠ [] →
  ∀ rebuilt, rebuilt = restoreAuxiliaryParts true settled s →
  length (mru uiState) = size rebuilt →
  restoreParts true settled s = restoreParts_afterReady rebuilt ∧
  (∀ (k : nat) i, mru uiState !! k = Some i →
     ¬ (0 ≤ i < Z.of_nat (size rebuilt)) →
     mostRecentActiveParts rebuilt !! k = Some None) ∧
  (∀ i, head (mru uiState) = Some i → ¬ (0 ≤ i < Z.of_nat (size rebuilt)) →
     head (mostRecentActiveParts rebuilt) = Some None) ∧
  ((∃ i, i ∈ mru uiState ∧ ¬ (0 ≤ i < Z.of_nat (size rebuilt))) →
   ∀ during later,
     None ∈ mostRecentActiveParts (run rebuilt during) ∧
     ((1 < size (run (restoreParts_afterReady (run rebuilt during)) later))%nat →
      getGroups (Some MOST_RECENTLY_ACTIVE)
        (run (restoreParts_afterReady (run rebuilt during)) later)
        = Throw TypeError)) ∧
  (∀ s1, head (mostRecentActiveParts s1) = Some None →
     focusRequests (restoreParts_afterReady s1) = focusRequests s1 ∧
     _isReady (restoreParts_afterReady s1) = true) ∧
  (∀ s1 part, head (mostRecentActiveParts s1) = Some (Some part) →
     focusRequests (restoreParts_afterReady s1)
       = focusRequests s1 ++ [part_activeGroup part]).
Proof.
  intros Hstate Haux rebuilt -> Hcount.
  destruct (restoreAuxiliaryParts_restored settled s uiState Hstate Haux)
    as (_ & Hparts & Hlist & _).
  cbn zeta in *. unfold size in *. rewrite Hparts in Hcount.
  rewrite decide_True in Hlist by done. rewrite Hparts.
  set (rebuilt := restoreAuxiliaryParts true settled s) in *.
  set (parts := foldl _ (_parts s) settled) in *.
  assert (∀ (k : nat) i, mru uiState !! k = Some i →
            ¬ (0 ≤ i < Z.of_nat (length parts)) →
            mostRecentActiveParts rebuilt !! k = Some None)
    as Hundefined.
  { intros k i Hk Hout. rewrite Hlist, list_lookup_fmap, Hk. cbn.
    by rewrite js_index_invalid. }
  split_and!; [done|done| | | |].
  - intros i Hhead Hout. rewrite head_lookup. apply (Hundefined 0%nat i); [|done].
    by rewrite <- head_lookup.
  - intros (i & [k Hk]%list_elem_of_lookup_1 & Hout) during later.
    assert (None ∈ mostRecentActiveParts (run rebuilt during)) as Hnone.
    { apply run_keeps_undefined. eapply list_elem_of_lookup_2.
      by apply (Hundefined k i). }
    split; [done|]. intros Hmany. apply getGroups_mru_throws; [done|].
    apply run_keeps_undefined. unfold restoreParts_afterReady.
    by destruct (firstOrDefault _).
  - intros s1 Hhead. unfold restoreParts_afterReady, firstOrDefault.
    by rewrite Hhead.
  - intros s1 part Hhead. unfold restoreParts_afterReady, firstOrDefault.
    by rewrite Hhead.
Qed.

Lemma restoreParts_position_out_of_range_witness :
  let rebuilt := restoreAuxiliaryParts true [Sample.aux1] storedStale in
  length (mru staleSnapshot) = size rebuilt ∧
  mostRecentActiveParts rebuilt = [None; Some Sample.main] ∧
  focusRequests (restoreParts true [Sample.aux1] storedStale) = [] ∧
  getGroups (Some MOST_RECENTLY_ACTIVE)
    (run (restoreParts_afterReady
            (run rebuilt [Emit Sample.aux1 onDidFocus])) [])
    = Throw TypeError.
Proof.
  set (rebuilt := restoreAuxiliaryParts true [Sample.aux1] storedStale).
  assert (workspaceMemento storedStale !! EDITOR_PARTS_UI_STATE_STORAGE_KEY
          = Some staleSnapshot) as Hstate by reflexivity.
  assert (auxiliary staleSnapshot ≠ []) as Haux by discriminate.
  assert (length (mru staleSnapshot) = size rebuilt) as Hcount by reflexivity.
  assert (¬ (0 ≤ 2 < Z.of_nat (size rebuilt))) as Hout
    by (vm_compute; intros [_ ?]; done).
  destruct (restoreParts_position_out_of_range storedStale [Sample.aux1]
    staleSnapshot Hstate Haux rebuilt eq_refl Hcount)
    as (Hsteps & _ & Hhead & Hthrow & Hfocus & _).
  split_and!; [exact Hcount|reflexivity| |].
  - rewrite Hsteps. exact (proj1 (Hfocus rebuilt (Hhead 2 eq_refl Hout))).
  - apply (Hthrow (ex_intro _ 2 (conj (list_elem_of_here _ _) Hout))
             [Emit Sample.aux1 onDidFocus] []).
    vm_compute. lia.
Defined.

(** X18. The windows restored together are all requested before any of them
    is registered: every part that the restoration registers carries the
    label computed from the registry as it was before ("Window n+1" for a
    registry of n parts), the labels of the other parts are left alone, and
    for each registered part, in the order of registration, group-added is
    fired for its active group and then the creation event. *)
Theorem restoreParts_registers_settled `{!Collaborators} (s : EditorParts)
    (settled : list EditorPart) (uiState : IEditorPartsUIState) :
  workspaceMemento s !! EDITOR_PARTS_UI_STATE_STORAGE_KEY = Some uiState →
  auxiliary uiState ≠ [] →
  ∀ s', s' = restoreParts true settled s →
  (∀ part, part ∈ settled →
     groupsLabel s' !! part = Some ("Window " +:+ pretty (size s + 1)%nat)) ∧
  (∀ part, part ∉ settled → groupsLabel s' !! part = groupsLabel s !! part) ∧
  fired s' =
    fired s ++
    concat ((λ part, [DidAddGroup (part_activeGroup part);
                      DidCreateAuxiliaryEditorPart part]) <$> settled) ∧
  (∀ part, part ∈ _parts s' ↔ part ∈ _parts s ∨ part ∈ settled).
Proof.
  intros Hstate Haux s' ->.
  destruct (restoreParts_effects settled s uiState Hstate Haux) as [-> ->].
  destruct (restoreParts_finish true settled s) as (_ & -> & _).
  destruct (restoreAuxiliaryParts_restored settled s uiState Hstate Haux)
    as (_ & -> & _).
  split_and!.
  - intros part Hpart. rewrite resolve_all_labels. by rewrite decide_True.
  - intros part Hpart. rewrite resolve_all_labels. by rewrite decide_False.
  - apply resolve_all_fired.
  - intros part. generalize (_parts s). clear.
    induction settled as [|a settled IH]; intros parts; cbn [foldl].
    + rewrite elem_of_nil. tauto.
    + rewrite IH, elem_of_set_add, elem_of_cons. tauto.
Qed.

Lemma restoreParts_registers_settled_witness :
  let s' := restoreParts true [Sample.aux1; Sample.aux2] Sample.stored in
  groupsLabel s' !! Sample.aux1 = Some "Window 2" ∧
  groupsLabel s' !! Sample.aux2 = Some "Window 2".
Proof.
  assert (workspaceMemento Sample.stored !! EDITOR_PARTS_UI_STATE_STORAGE_KEY
          = Some Sample.saved) as Hstate by reflexivity.
  assert (auxiliary Sample.saved ≠ []) as Haux by discriminate.
  destruct (restoreParts_registers_settled Sample.stored
    [Sample.aux1; Sample.aux2] Sample.saved Hstate Haux _ eq_refl)
    as (Hlabels & _).
  split; [exact (Hlabels Sample.aux1 (list_elem_of_here _ _))|].
  apply (Hlabels Sample.aux2). right. by left.
Defined.

(** ** Routing the group operations *)

(** X19. Every operation of the groups service goes to one part.  The
    operations without a group argument, and arranging or toggling without a
    group, go to the active part, merge-all whatever its target.  All others
    go to the main part when a single part is registered; and when they name
    a group or an identifier, they go to a registered part, chosen from the
    first argument alone (the location of a move or a copy and the target of
    a merge play no role). *)
Theorem receiver_of_operation `{!Collaborators} (s : EditorParts) (op : Operation) :
  (usesActivePart op = true → receiver op s = activePart s) ∧
  (usesActivePart op = false → (size s ≤ 1)%nat → receiver op s = mainPart s) ∧
  (usesActivePart op = false → mainPart s ∈ _parts s →
   (∀ container delegate, op ≠ createEditorDropTarget container delegate) →
   receiver op s ∈ _parts s) ∧
  (∀ group place place' towards towards' target target' options options',
     receiver (moveGroup group place towards) s
       = receiver (moveGroup group place' towards') s ∧
     receiver (copyGroup group place towards) s
       = receiver (copyGroup group place' towards') s ∧
     receiver (mergeGroup group target options) s
       = receiver (mergeGroup group target' options') s ∧
     receiver (mergeAllGroups target) s = receiver (mergeAllGroups target') s).
Proof.
  assert (∀ input, (size s ≤ 1)%nat → getPart input s = mainPart s) as Hone.
  { intros input Hsize. unfold getPart. by rewrite decide_False by lia. }
  assert (∀ group, mainPart s ∈ _parts s → getPart (widen group) s ∈ _parts s)
    as Hin.
  { intros group Hmain.
    assert (getPart (widen group) s =
      if decide (1 < size s)%nat then
        match list_find (λ part, part_hasGroup part (identifierOf group) = true)
                (_parts s) with
        | Some (_, part) => part
        | None => mainPart s
        end
      else mainPart s) as ->.
    { unfold getPart. by destruct group. }
    destruct (decide _); [|done].
    destruct (list_find _ (_parts s)) as [[i part]|] eqn:Hfind; [|done].
    apply list_find_Some in Hfind as (Hi & _). by eapply list_elem_of_lookup_2. }
  split_and!.
  - destruct op as [| | |? [?|]|[?|]|[?|]| | | | | | | | | | | | | |]; done.
  - intros Hactive Hsize.
    destruct op as [| | |? [?|]|[?|]|[?|]| | | | | | | | | | | | | |];
      try done; by apply Hone.
  - intros Hactive Hmain Hdrop.
    destruct op as [| | |? [?|]|[?|]|[?|]| | | | | | | | | | | | | |];
      try done; try (by apply Hin).
    by destruct (Hdrop container delegate).
  - done.
Qed.

Lemma receiver_of_operation_witness :
  receiver (moveGroup (OfIdentifier 4) (OfIdentifier 1) RIGHT) Sample.two
    = Sample.aux1 ∧
  receiver (removeGroup (OfIdentifier 4)) Sample.one = Sample.main.
Proof.
  destruct (receiver_of_operation Sample.one (removeGroup (OfIdentifier 4)))
    as (_ & Hone & _).
  split; [reflexivity|].
  apply Hone; [reflexivity|vm_compute; lia].
Defined.

(** ** Labels tell the windows apart *)



(** ** Looking a group up *)

Section lookup.
Context `{!Collaborators}.

Lemma firstGroup_Some_inv parts n group :
  firstGroup parts n = Some group →
  ∃ (i : nat) part,
    parts !! i = Some part ∧ part_getGroup part n = Some group ∧
    ∀ (j : nat) q, (j < i)%nat → parts !! j = Some q → part_getGroup q n = None.
Proof.
  induction parts as [|p parts IH]; [done|]. cbn [firstGroup].
  destruct (part_getGroup p n) as [g|] eqn:Hp.
  - intros [= ->]. exists 0%nat, p. split_and!; [done..|]. intros; lia.
  - intros (i & part & Hi & Hgroup & Hfirst)%IH. exists (S i), part.
    split_and!; [done..|]. intros [|j] q Hj Hq.
    + by injection Hq as <-.
    + apply (Hfirst j); [lia|done].
Qed.

End lookup.

(** X21. Looking a group up by its identifier never fails.  It finds nothing
    exactly when no registered part has a group for the identifier, and what
    it finds is the group that the first registered part with such a group
    returns, whether one or several parts are registered. *)
Theorem getGroup_first_owner `{!Collaborators} (s : EditorParts)
    (n : GroupIdentifier) :
  mainPart s ∈ _parts s →
  (getGroup n s = None ↔ ∀ part, part ∈ _parts s → part_getGroup part n = None) ∧
  (∀ group, getGroup n s = Some group ↔
     ∃ (i : nat) part,
       _parts s !! i = Some part ∧ part_getGroup part n = Some group ∧
       ∀ (j : nat) q, (j < i)%nat → _parts s !! j = Some q →
         part_getGroup q n = None).
Proof.
  intros Hmain. rewrite getGroup_firstGroup by done. split.
  - apply firstGroup_None.
  - intros group. split; [apply firstGroup_Some_inv|].
    intros (i & part & Hi & Hgroup & Hfirst). by eapply firstGroup_Some.
Qed.

Lemma getGroup_first_owner_witness :
  mainPart Sample.two ∈ _parts Sample.two ∧
  getGroup 4 Sample.two = Some (Sample.g 4) ∧ getGroup 99 Sample.two = None.
Proof.
  assert (mainPart Sample.two ∈ _parts Sample.two) as Hmain by (by left).
  destruct (getGroup_first_owner Sample.two 4 Hmain) as [_ Hsome].
  destruct (getGroup_first_owner Sample.two 99 Hmain) as [Hnone _].
  split_and!; [exact Hmain| |].
  - apply Hsome. exists 1%nat, Sample.aux1. split_and!; [reflexivity..|].
    intros [|j] q Hj Hq; [|lia]. injection Hq as <-. reflexivity.
  - apply Hnone. intros part Hpart.
    repeat (apply elem_of_cons in Hpart as [->|Hpart]; [reflexivity|]).
    by apply elem_of_nil in Hpart.
Defined.
